(** * The file provider of traefik ([provider/file/file.go])

    A shallow embedding of the provider that loads a dynamic configuration
    from one file or from a directory tree, watches the backing files and
    sends every rebuilt configuration on a channel.

    Conventions of the embedding:
    - a Go pointer that may be [nil] is an [option]; a Go map that may be
      [nil] is an [option (gmap _ _)]; a slice that may be [nil] is an
      [option (list _)];
    - [*config.Router], [*config.Middleware], [*config.Service] and
      [*tls.Configuration] are opaque payloads owned by other packages: only
      their addresses matter here, so they are addresses ([positive]);
    - a Go function returning [(value, error)] returns a pair whose second
      component is an [option error] ([None] is the [nil] error);
    - the logger, the configuration channel, the task pool and the counter of
      [range] statements over maps are the mutable state [Runtime] of a small
      state monad [Exec] with three outcomes: normal return, run-time panic,
      and exhaustion of the recursion fuel;
    - the order in which [range] visits a Go map is not specified by the
      language: it is chosen by a [RangeOrder], any family of permutations. *)

From stdpp Require Import base option list gmap sets strings.

Open Scope string_scope.
Open Scope list_scope.

(** ** Data of the surrounding packages *)

Abbreviation ptr := positive (only parsing).

(** [os.FileInfo], as far as the walk reads it, and the path separator. *)
Module os.
Record FileInfo := { Name : string; IsDir : bool }.
Definition PathSeparator : Ascii.ascii := Ascii.ascii_of_nat 47.
Definition IsPathSeparator (c : Ascii.ascii) : bool := Ascii.eqb c PathSeparator.
End os.

(** Errors, by the place that creates them. [External] stands for an error
    value coming from the operating system, the decoder or the notifier. *)
Inductive error :=
| External (msg : string)
| NoFilenameDefined
| InvalidFilename (filename : string)
| ErrorReadingConfigurationFile (filename : string) (err : error)
| UnableToReadDirectory (directory : string) (err : error)
| UnableToLoadSubdirectory (item : os.FileInfo) (err : error)
| ErrorCreatingFileWatcher (err : error)
| ErrorAddingFileWatcher (err : error).

Module fsnotify.
Record Event := { Name : string }.
End fsnotify.

(** [config.Configuration] and [config.Message]. *)
Record Configuration := {
  Routers : option (gmap string ptr);
  Middlewares : option (gmap string ptr);
  Services : option (gmap string ptr);
  TLS : option (list ptr)
}.

Record Message := {
  MsgProviderName : string;
  MsgConfiguration : option Configuration
}.

(** The structured logger: an entry keeps its level, the fields attached
    with [WithField], the format string and the arguments. *)
Module log.
Inductive FieldName := ProviderName | RouterName | MiddlewareName | ServiceName.
Inductive Level := WarnLevel | ErrorLevel.
Inductive Arg := ArgString (s : string) | ArgError (e : error) | ArgTLS (conf : ptr).
Record Entry := {
  level : Level;
  fields : list (FieldName * string);
  format : string;
  args : list Arg
}.
Definition Logger := list (FieldName * string).
Definition WithField (k : FieldName) (v : string) (l : Logger) : Logger := l ++ [(k, v)].
End log.

Definition providerName : string := "file".

(** [Provider]: the fields of [provider.BaseProvider] that this file reads
    ([Watch], [Filename]) and the two fields it declares. *)
Record Provider := {
  Watch : bool;
  Filename : string;
  Directory : string;
  TraefikFile : string
}.

(** The operating system and the notifier, as one build or one callback
    sees them. *)
Record World := {
  ioutil_ReadDir : string → list os.FileInfo * option error;
  ioutil_ReadFile : string → string * option error;
  os_Stat : string → option error;
  fsnotify_NewWatcher : option error;
  fsnotify_Add : string → option error
}.

(** The order of iteration of the [n]-th [range] over a map. *)
Record RangeOrder := {
  order : nat → ∀ A : Type, list A → list A;
  order_Permutation : ∀ n A (l : list A), order n A l ≡ₚ l
}.

(** ** The state monad *)

(** A background task started by [pool.Go]: the watch loop of [addWatcher]. *)
Record WatchTask := {
  watched : string;
  owner : Provider
}.

Record Runtime := {
  logged : list log.Entry;
  ranges : nat;
  sent : list Message;
  tasks : list WatchTask
}.

Inductive outcome (A : Type) :=
| Done (a : A) (s : Runtime)
| Panic (s : Runtime)
| OutOfFuel.
Arguments Done {A} a s.
Arguments Panic {A} s.
Arguments OutOfFuel {A}.

Definition Exec (A : Type) : Type := Runtime → outcome A.

#[export] Instance Exec_ret : MRet Exec := λ A a s, Done a s.

#[export] Instance Exec_bind : MBind Exec := λ A B k m s,
  match m s with
  | Done a s' => k a s'
  | Panic s' => Panic s'
  | OutOfFuel => OutOfFuel
  end.

Definition panic {A} : Exec A := λ s, Panic s.

Definition emit (e : log.Entry) : Exec unit :=
  λ s, Done tt {| logged := logged s ++ [e]; ranges := ranges s;
                  sent := sent s; tasks := tasks s |}.

Definition Warn (l : log.Logger) (msg : string) : Exec unit :=
  emit {| log.level := log.WarnLevel; log.fields := l; log.format := msg; log.args := [] |}.

Definition Warnf (l : log.Logger) (fmt : string) (a : list log.Arg) : Exec unit :=
  emit {| log.level := log.WarnLevel; log.fields := l; log.format := fmt; log.args := a |}.

Definition Errorf (l : log.Logger) (fmt : string) (a : list log.Arg) : Exec unit :=
  emit {| log.level := log.ErrorLevel; log.fields := l; log.format := fmt; log.args := a |}.

(** [configurationChan <- msg]. *)
Definition chanSend (m : Message) : Exec unit :=
  λ s, Done tt {| logged := logged s; ranges := ranges s;
                  sent := sent s ++ [m]; tasks := tasks s |}.

(** [pool.Go(f)]. *)
Definition poolGo (t : WatchTask) : Exec unit :=
  λ s, Done tt {| logged := logged s; ranges := ranges s;
                  sent := sent s; tasks := tasks s ++ [t] |}.

(** ** Library functions of Go that are computed here *)

(** [strings.HasSuffix]. *)
Definition HasSuffix (s suffix : string) : bool :=
  (String.length suffix <=? String.length s)%nat &&
  String.eqb (String.substring (String.length s - String.length suffix)
                        (String.length suffix) s) suffix.

(** [filepath.Split] on a system whose separator is [/] and that has no
    volume names: the index just after the last separator is found by
    scanning from the end. *)
Fixpoint splitIndex (path : string) (k : nat) : nat :=
  match k with
  | 0 => 0
  | S i => match String.get i path with
           | Some c => if os.IsPathSeparator c then S i else splitIndex path i
           | None => splitIndex path i
           end
  end.

Definition filepath_Split (path : string) : string * string :=
  let i := splitIndex path (String.length path) in
  (String.substring 0 i path, String.substring i (String.length path - i) path).

(** ** The provider *)

Section FileProvider.

(** The Go run time's choice of iteration orders. *)
Variable rho : RangeOrder.

(** [BaseProvider.CreateConfiguration] (template rendering, then decoding)
    and [BaseProvider.DecodeConfiguration] (decoding only) belong to the
    package [provider]; both return a [config.Configuration] pointer and an
    error. *)
Variable CreateConfiguration : string → option Configuration * option error.
Variable DecodeConfiguration : string → option Configuration * option error.

(** [path.Join], [filepath.Join] and [filepath.Dir] of the Go library. *)
Variable path_Join : string → string → string.
Variable filepath_Join : string → string → string.
Variable filepath_Dir : string → string.

Section OneWorld.

Variable w : World.

Definition readFile (filename : string) : string * option error :=
  if (0 <? String.length filename)%nat then
    let '(buf, err) := ioutil_ReadFile w filename in
    match err with
    | Some e => ("", Some e)
    | None => (buf, None)
    end
  else ("", Some (InvalidFilename filename)).

(** The test of line 190, on a pointer that may be [nil]. *)
Definition isBlank (configuration : option Configuration) : bool :=
  match configuration with
  | None => true
  | Some c =>
      bool_decide (Routers c = None) && bool_decide (Middlewares c = None)
      && bool_decide (Services c = None) && bool_decide (TLS c = None)
  end.

(** The literal of lines 191-195 and 210-214: three maps made with [make],
    the field [TLS] left at its zero value. *)
Definition emptyConfiguration : Configuration :=
  {| Routers := Some ∅; Middlewares := Some ∅; Services := Some ∅; TLS := None |}.

Definition loadFileConfig (filename : string) (parseTemplate : bool)
  : option Configuration * option error :=
  let '(fileContent, err) := readFile filename in
  match err with
  | Some e => (None, Some (ErrorReadingConfigurationFile filename e))
  | None =>
      let '(configuration, err) :=
        if parseTemplate then CreateConfiguration fileContent
        else DecodeConfiguration fileContent in
      match err with
      | Some e => (None, Some e)
      | None =>
          let configuration :=
            if isBlank configuration then Some emptyConfiguration
            else configuration in
          (configuration, err)
      end
  end.

(** [for name, conf := range m]: the entries of [m] in the order the run
    time picks for this [range] statement; a [nil] map has no entry. *)
Definition rangeMap (m : option (gmap string ptr)) : Exec (list (string * ptr)) :=
  λ s, Done (order rho (ranges s) _ (map_to_list (default ∅ m)))
            {| logged := logged s; ranges := S (ranges s);
               sent := sent s; tasks := tasks s |}.

Definition rangeSet (m : gset ptr) : Exec (list ptr) :=
  λ s, Done (order rho (ranges s) _ (elements m))
            {| logged := logged s; ranges := S (ranges s);
               sent := sent s; tasks := tasks s |}.

(** The body shared by the three loops of lines 237-259. [get] and [set]
    select the field of the accumulator ([Routers], [Middlewares] or
    [Services]); indexing a [nil] accumulator pointer or assigning into a
    [nil] map panics. *)
Fixpoint mergeEntries (logger : log.Logger) (field : log.FieldName) (msg : string)
    (get : Configuration → option (gmap string ptr))
    (set : option (gmap string ptr) → Configuration → Configuration)
    (entries : list (string * ptr)) (configuration : option Configuration)
  : Exec (option Configuration) :=
  match entries with
  | [] => mret configuration
  | (name, conf) :: rest =>
      match configuration with
      | None => panic
      | Some cfg =>
          match get cfg with
          | Some m =>
              match m !! name with
              | Some _ =>
                  Warn (log.WithField field name logger) msg ;;
                  mergeEntries logger field msg get set rest configuration
              | None =>
                  mergeEntries logger field msg get set rest
                    (Some (set (Some (<[name := conf]> m)) cfg))
              end
          | None => panic
          end
      end
  end.

Definition setRouters (m : option (gmap string ptr)) (c : Configuration) :=
  {| Routers := m; Middlewares := Middlewares c; Services := Services c; TLS := TLS c |}.
Definition setMiddlewares (m : option (gmap string ptr)) (c : Configuration) :=
  {| Routers := Routers c; Middlewares := m; Services := Services c; TLS := TLS c |}.
Definition setServices (m : option (gmap string ptr)) (c : Configuration) :=
  {| Routers := Routers c; Middlewares := Middlewares c; Services := m; TLS := TLS c |}.
Definition setTLS (t : option (list ptr)) (c : Configuration) :=
  {| Routers := Routers c; Middlewares := Middlewares c; Services := Services c; TLS := t |}.

(** Lines 261-267: the set of [*tls.Configuration] seen in this call. *)
Fixpoint collectTLS (logger : log.Logger) (confs : list ptr) (configTLSMaps : gset ptr)
  : Exec (gset ptr) :=
  match confs with
  | [] => mret configTLSMaps
  | conf :: rest =>
      if decide (conf ∈ configTLSMaps) then
        Warnf logger "TLS Configuration %v already configured, skipping" [log.ArgTLS conf] ;;
        collectTLS logger rest configTLSMaps
      else collectTLS logger rest ({[conf]} ∪ configTLSMaps)
  end.

(** Lines 237-267: one decoded file [c] merged into the accumulator. *)
Definition mergeFile (logger : log.Logger) (c : Configuration)
    (configuration : option Configuration) (configTLSMaps : gset ptr)
  : Exec (option Configuration * gset ptr) :=
  rs ← rangeMap (Routers c);
  configuration ← mergeEntries logger log.RouterName
    "Router already configured, skipping" Routers setRouters rs configuration;
  ms ← rangeMap (Middlewares c);
  configuration ← mergeEntries logger log.MiddlewareName
    "Middleware already configured, skipping" Middlewares setMiddlewares ms configuration;
  ss ← rangeMap (Services c);
  configuration ← mergeEntries logger log.ServiceName
    "Service already configured, skipping" Services setServices ss configuration;
  configTLSMaps ← collectTLS logger (default [] (TLS c)) configTLSMaps;
  mret (configuration, configTLSMaps).

(** Lines 218-268, the loop over the listing; [recurse] is the method
    itself, called on a subdirectory. The result is [inl] when the loop is
    left by one of its [return] statements, with the two values returned,
    and [inr] when the listing is exhausted. *)
Fixpoint walkItems
    (recurse : string → option Configuration → Exec (option Configuration * option error))
    (logger : log.Logger) (directory : string) (fileList : list os.FileInfo)
    (configuration : option Configuration) (configTLSMaps : gset ptr)
  : Exec ((option Configuration * error) + (option Configuration * gset ptr)) :=
  match fileList with
  | [] => mret (inr (configuration, configTLSMaps))
  | item :: rest =>
      if os.IsDir item then
        r ← recurse (filepath_Join directory (os.Name item)) configuration;
        match r.2 with
        | Some err => mret (inl (r.1, UnableToLoadSubdirectory item err))
        | None => walkItems recurse logger directory rest r.1 configTLSMaps
        end
      else if negb (HasSuffix (os.Name item) ".toml")
              && negb (HasSuffix (os.Name item) ".tmpl") then
        walkItems recurse logger directory rest configuration configTLSMaps
      else
        let '(c, err) := loadFileConfig (path_Join directory (os.Name item)) true in
        match err with
        | Some e => mret (inl (configuration, e))
        | None =>
            match c with
            | None => panic
            | Some c =>
                r ← mergeFile logger c configuration configTLSMaps;
                walkItems recurse logger directory rest r.1 r.2
            end
        end
  end.

(** Lines 270-272: [configuration.TLS = append(configuration.TLS, conf)]
    for every [conf] the [range] over the set yields. *)
Fixpoint appendTLS (confs : list ptr) (configuration : option Configuration)
  : Exec (option Configuration) :=
  match confs with
  | [] => mret configuration
  | conf :: rest =>
      match configuration with
      | None => panic
      | Some cfg => appendTLS rest (Some (setTLS (Some (default [] (TLS cfg) ++ [conf])) cfg))
      end
  end.

(** [fuel] bounds the depth of nested directories; [ctx] carries the
    logger. *)
Fixpoint loadFileConfigFromDirectory (fuel : nat) (ctx : log.Logger) (directory : string)
    (configuration : option Configuration)
  : Exec (option Configuration * option error) :=
  match fuel with
  | 0 => λ _, OutOfFuel
  | S fuel =>
      let logger := ctx in
      let '(fileList, err) := ioutil_ReadDir w directory in
      match err with
      | Some e => mret (configuration, Some (UnableToReadDirectory directory e))
      | None =>
          let configuration :=
            match configuration with
            | None => Some emptyConfiguration
            | Some _ => configuration
            end in
          r ← walkItems (loadFileConfigFromDirectory fuel ctx) logger directory fileList
                configuration ∅;
          match r with
          | inl (configuration, err) => mret (configuration, Some err)
          | inr (configuration, configTLSMaps) =>
              confs ← rangeSet configTLSMaps;
              configuration ← appendTLS confs configuration;
              mret (configuration, None)
          end
      end
  end.

Definition BuildConfiguration (fuel : nat) (p : Provider)
  : Exec (option Configuration * option error) :=
  let ctx := log.WithField log.ProviderName providerName [] in
  if (0 <? String.length (Directory p))%nat then
    loadFileConfigFromDirectory fuel ctx (Directory p) None
  else if (0 <? String.length (Filename p))%nat then
    mret (loadFileConfig (Filename p) true)
  else if (0 <? String.length (TraefikFile p))%nat then
    mret (loadFileConfig (TraefikFile p) false)
  else mret (None, Some NoFilenameDefined).

Definition sendConfigToChannel (configuration : option Configuration) : Exec unit :=
  chanSend {| MsgProviderName := "file"; MsgConfiguration := configuration |}.

Definition watcherCallback (fuel : nat) (p : Provider) (event : fsnotify.Event) : Exec unit :=
  let watchItem := TraefikFile p in
  let watchItem :=
    if (0 <? String.length (Directory p))%nat then Directory p
    else if (0 <? String.length (Filename p))%nat then Filename p
    else watchItem in
  let logger := log.WithField log.ProviderName providerName [] in
  match os_Stat w watchItem with
  | Some err =>
      Errorf logger "Unable to watch %s : %v" [log.ArgString watchItem; log.ArgError err]
  | None =>
      r ← BuildConfiguration fuel p;
      match r.2 with
      | Some err =>
          Errorf logger "Error occurred during watcher callback: %s" [log.ArgError err]
      | None => sendConfigToChannel r.1
      end
  end.

(** What the [select] of the watch loop receives. *)
Inductive Signal :=
  | Stop
  | Events (evt : fsnotify.Event)
  | Errors (err : error).

(** One turn of the loop of lines 102-126; the result tells whether the
    loop goes on ([false] after [return]). *)
Definition watchSelect (callback : fsnotify.Event → Exec unit) (p : Provider)
    (sig : Signal) : Exec bool :=
  match sig with
  | Stop => mret false
  | Events evt =>
      (if String.eqb (Directory p) "" then
         let filename :=
           if (0 <? String.length (Filename p))%nat then Filename p
           else TraefikFile p in
         let '(_, evtFileName) := filepath_Split (fsnotify.Name evt) in
         let '(_, confFileName) := filepath_Split filename in
         if String.eqb evtFileName confFileName then callback evt else mret tt
       else callback evt) ;;
      mret true
  | Errors err =>
      Errorf (log.WithField log.ProviderName providerName [])
        "Watcher event error: %s" [log.ArgError err] ;;
      mret true
  end.

(** Lines 88-129, up to the start of the background task. *)
Definition addWatcher (p : Provider) (directory : string) : Exec (option error) :=
  match fsnotify_NewWatcher w with
  | Some err => mret (Some (ErrorCreatingFileWatcher err))
  | None =>
      match fsnotify_Add w directory with
      | Some err => mret (Some (ErrorAddingFileWatcher err))
      | None => poolGo {| watched := directory; owner := p |} ;; mret None
      end
  end.

Definition Provide (fuel : nat) (p : Provider) : Exec (option error) :=
  r ← BuildConfiguration fuel p;
  match r.2 with
  | Some err => mret (Some err)
  | None =>
      e ← (if Watch p then
             let watchItem :=
               if (0 <? String.length (Directory p))%nat then Directory p
               else if (0 <? String.length (Filename p))%nat then filepath_Dir (Filename p)
               else filepath_Dir (TraefikFile p) in
             addWatcher p watchItem
           else mret None);
      match e with
      | Some err => mret (Some err)
      | None => sendConfigToChannel r.1 ;; mret None
      end
  end.

End OneWorld.

(** The background task of [addWatcher] over a finite history of what its
    [select] receives, each signal with the world at that moment. *)
Fixpoint watchLoop (fuel : nat) (p : Provider) (trace : list (World * Signal)) : Exec unit :=
  match trace with
  | [] => mret tt
  | (w, sig) :: rest =>
      continue ← watchSelect (watcherCallback w fuel p) p sig;
      if continue : bool then watchLoop fuel p rest else mret tt
  end.

(** Every task of the pool runs its loop on the history. *)
Fixpoint runTasks (fuel : nat) (ts : list WatchTask) (trace : list (World * Signal))
  : Exec unit :=
  match ts with
  | [] => mret tt
  | t :: ts => watchLoop fuel (owner t) trace ;; runTasks fuel ts trace
  end.

Definition runPool (fuel : nat) (trace : list (World * Signal)) : Exec unit :=
  λ s, runTasks fuel (tasks s) trace s.

End FileProvider.

(** ** Vocabulary of the statements *)

(** The runtime after more log entries, and after more [range] statements. *)
Definition addLog (l : list log.Entry) (s : Runtime) : Runtime :=
  {| logged := logged s ++ l; ranges := ranges s; sent := sent s; tasks := tasks s |}.

Definition tick (n : nat) (s : Runtime) : Runtime :=
  {| logged := logged s; ranges := n + ranges s; sent := sent s; tasks := tasks s |}.

Definition addSent (m : Message) (s : Runtime) : Runtime :=
  {| logged := logged s; ranges := ranges s; sent := sent s ++ [m]; tasks := tasks s |}.

(** The warning of a name conflict: the logger of the call with one more
    field, the kind of entity, holding the name. *)
Definition nameWarning (logger : log.Logger) (field : log.FieldName) (msg : string)
    (name : string) : log.Entry :=
  {| log.level := log.WarnLevel; log.fields := log.WithField field name logger;
     log.format := msg; log.args := [] |}.

Definition tlsWarning (logger : log.Logger) (conf : ptr) : log.Entry :=
  {| log.level := log.WarnLevel; log.fields := logger;
     log.format := "TLS Configuration %v already configured, skipping";
     log.args := [log.ArgTLS conf] |}.

(** First-merged-wins on one mapping: what the accumulator held stays, a
    name it did not hold takes the incoming payload, if any. *)
Definition firstWins (acc incoming merged : gmap string ptr) : Prop :=
  (∀ name v, acc !! name = Some v → merged !! name = Some v) ∧
  (∀ name, acc !! name = None → merged !! name = incoming !! name).

(** The occurrences in [confs], in order, of an address already in [seen]
    or met earlier in [confs]. *)
Fixpoint repeats (confs : list ptr) (seen : gset ptr) : list ptr :=
  match confs with
  | [] => []
  | conf :: rest =>
      if decide (conf ∈ seen) then conf :: repeats rest seen
      else repeats rest ({[conf]} ∪ seen)
  end.

(** The slice [t] after [append]ing [confs] one by one. *)
Definition appendedTLS (t : option (list ptr)) (confs : list ptr) : option (list ptr) :=
  match confs with
  | [] => t
  | _ => Some (default [] t ++ confs)
  end.

(** Two runtimes with the same channel content and the same tasks. *)
Definition frame (s s' : Runtime) : Prop := sent s' = sent s ∧ tasks s' = tasks s.

(** A snapshot none of whose three mappings is [nil]. *)
Definition nonNilMaps (c : Configuration) : Prop :=
  is_Some (Routers c) ∧ is_Some (Middlewares c) ∧ is_Some (Services c).

Definition good (configuration : option Configuration) : Prop :=
  ∃ c, configuration = Some c ∧ nonNilMaps c.

(** The provider target of the specification: a directory, else a file,
    else a fallback file. *)
Inductive ProviderTarget :=
| TargetDirectory (directory : string)
| TargetFile (filename : string)
| TargetFallbackFile (filename : string).

Definition targetOf (p : Provider) : option ProviderTarget :=
  if decide (Directory p ≠ "") then Some (TargetDirectory (Directory p))
  else if decide (Filename p ≠ "") then Some (TargetFile (Filename p))
  else if decide (TraefikFile p ≠ "") then Some (TargetFallbackFile (TraefikFile p))
  else None.

(** What the invariant [I] on accumulators promises of a call of the
    aggregator, and of its loop, started in [s]. *)
Definition keeps (I : Configuration → Prop) (s : Runtime)
    (o : outcome (option Configuration * option error)) : Prop :=
  match o with
  | Done (c', e) s' => frame s s' ∧ (e = None → ∃ cfg', c' = Some cfg' ∧ I cfg')
  | Panic _ => False
  | OutOfFuel => True
  end.

Definition keepsWalk (I : Configuration → Prop) (s : Runtime)
    (o : outcome ((option Configuration * error) + (option Configuration * gset ptr)))
  : Prop :=
  match o with
  | Done r s' =>
      frame s s' ∧
      match r with
      | inl _ => True
      | inr (c', _) => ∃ cfg', c' = Some cfg' ∧ I cfg'
      end
  | Panic _ => False
  | OutOfFuel => True
  end.

(** The normalization of lines 190-196 applied to what the decoder returned. *)
Definition normalized (decoded : option Configuration) : option Configuration :=
  if isBlank decoded then Some emptyConfiguration else decoded.

(** What a successful build of the target [t] may return as snapshot [c]. *)
Definition builtFrom (Create Decode : string → option Configuration * option error)
    (w : World) (t : option ProviderTarget) (c : option Configuration) : Prop :=
  match t with
  | Some (TargetDirectory _) => good c
  | Some (TargetFile f) =>
      ∃ content decoded, readFile w f = (content, None) ∧
        Create content = (decoded, None) ∧ c = normalized decoded ∧
        (isBlank decoded = true → good c)
  | Some (TargetFallbackFile f) =>
      ∃ content decoded, readFile w f = (content, None) ∧
        Decode content = (decoded, None) ∧ c = normalized decoded ∧
        (isBlank decoded = true → good c)
  | None => False
  end.

(** The addresses of the TLS entries of the recognized files that a listing
    holds directly (not those of its subdirectories). *)
Fixpoint ownTLS (Create Decode : string → option Configuration * option error)
    (path_Join : string → string → string) (w : World) (directory : string)
    (fileList : list os.FileInfo) : gset ptr :=
  match fileList with
  | [] => ∅
  | item :: rest =>
      (if os.IsDir item then ∅
       else if negb (HasSuffix (os.Name item) ".toml")
               && negb (HasSuffix (os.Name item) ".tmpl") then ∅
       else match loadFileConfig Create Decode w (path_Join directory (os.Name item)) true with
            | (Some c, None) => list_to_set (default [] (TLS c))
            | _ => ∅
            end)
      ∪ ownTLS Create Decode path_Join w directory rest
  end.

(** Two TLS collections, both [nil] or one a reordering of the other. *)
Definition sameTLS (t1 t2 : option (list ptr)) : Prop :=
  match t1, t2 with
  | None, None => True
  | Some l1, Some l2 => l1 ≡ₚ l2
  | _, _ => False
  end.

(** Two snapshots with the same three mappings and the same TLS entries up
    to their order. *)
Definition sameSnapshot (c1 c2 : Configuration) : Prop :=
  Routers c1 = Routers c2 ∧ Middlewares c1 = Middlewares c2 ∧
  Services c1 = Services c2 ∧ sameTLS (TLS c1) (TLS c2).

Definition sameResult (c1 c2 : option Configuration) : Prop :=
  match c1, c2 with
  | None, None => True
  | Some c1, Some c2 => sameSnapshot c1 c2
  | _, _ => False
  end.

(** Two runs of a build that end alike: both return, with the same error or
    none and snapshots that are the same up to the order of TLS entries, or
    both exhaust the fuel. *)
Definition sameBuild (o1 o2 : outcome (option Configuration * option error)) : Prop :=
  match o1, o2 with
  | Done (c1, e1) _, Done (c2, e2) _ => sameResult c1 c2 ∧ e1 = e2
  | OutOfFuel, OutOfFuel => True
  | _, _ => False
  end.

Definition sameWalk
    (o1 o2 : outcome ((option Configuration * error) + (option Configuration * gset ptr)))
  : Prop :=
  match o1, o2 with
  | Done (inl (c1, e1)) _, Done (inl (c2, e2)) _ => sameResult c1 c2 ∧ e1 = e2
  | Done (inr (c1, seen1)) _, Done (inr (c2, seen2)) _ =>
      sameResult c1 c2 ∧ seen1 = seen2
  | OutOfFuel, OutOfFuel => True
  | _, _ => False
  end.

(** The three kinds of named entities and their mapping in a snapshot. *)
Inductive Kind := RoutersKind | MiddlewaresKind | ServicesKind.

Definition mapping (k : Kind) (c : Configuration) : gmap string ptr :=
  default ∅ match k with
            | RoutersKind => Routers c
            | MiddlewaresKind => Middlewares c
            | ServicesKind => Services c
            end.

(** The files the walk loads: those whose name ends in [.toml] or [.tmpl]. *)
Definition recognized (item : os.FileInfo) : bool :=
  HasSuffix (os.Name item) ".toml" || HasSuffix (os.Name item) ".tmpl".

(** An accumulator, possibly not yet created, that does not define [name]. *)
Definition lacks (k : Kind) (name : string) (acc : option Configuration) : Prop :=
  match acc with
  | None => True
  | Some a => nonNilMaps a ∧ mapping k a !! name = None
  end.

(** A listed file that is skipped, or fails to load, or loads to a snapshot
    that does not define [name]. *)
Definition fileLacks (Create Decode : string → option Configuration * option error)
    (path_Join : string → string → string) (w : World) (directory : string)
    (k : Kind) (name : string) (item : os.FileInfo) : Prop :=
  os.IsDir item = false ∧
  ∀ c, recognized item = true →
       loadFileConfig Create Decode w (path_Join directory (os.Name item)) true
         = (Some c, None) →
       mapping k c !! name = None.

(** An accumulator that defines [name] with the payload [v]. *)
Definition defines (k : Kind) (name : string) (v : ptr) (c : Configuration) : Prop :=
  nonNilMaps c ∧ mapping k c !! name = Some v.

(** The path of a target; the empty path when there is none. *)
Definition targetPath (t : option ProviderTarget) : string :=
  match t with
  | Some (TargetDirectory d) => d
  | Some (TargetFile f) => f
  | Some (TargetFallbackFile f) => f
  | None => ""
  end.

(** The filename component of a path: what follows its last separator. *)
Definition fileName (path : string) : string := (filepath_Split path).2.

(** The relevance filter of the specification. *)
Definition relevantTo (t : ProviderTarget) (evt : fsnotify.Event) : bool :=
  match t with
  | TargetDirectory _ => true
  | TargetFile f => String.eqb (fileName (fsnotify.Name evt)) (fileName f)
  | TargetFallbackFile f => String.eqb (fileName (fsnotify.Name evt)) (fileName f)
  end.

(** The directory the watcher subscribes to, given how to take the parent
    directory of a file. *)
Definition subscription (filepath_Dir : string → string) (t : ProviderTarget) : string :=
  match t with
  | TargetDirectory d => d
  | TargetFile f => filepath_Dir f
  | TargetFallbackFile f => filepath_Dir f
  end.

(** The two entries the callback may log, and the message it may send. *)
Definition unableToWatch (watchItem : string) (err : error) : log.Entry :=
  {| log.level := log.ErrorLevel; log.fields := [(log.ProviderName, "file")];
     log.format := "Unable to watch %s : %v";
     log.args := [log.ArgString watchItem; log.ArgError err] |}.

Definition callbackError (err : error) : log.Entry :=
  {| log.level := log.ErrorLevel; log.fields := [(log.ProviderName, "file")];
     log.format := "Error occurred during watcher callback: %s";
     log.args := [log.ArgError err] |}.

Definition delivery (configuration : option Configuration) : Message :=
  {| MsgProviderName := "file"; MsgConfiguration := configuration |}.

(** What [loadFileConfig] makes of the pair a decoder returned. *)
Definition decodedResult (r : option Configuration * option error)
  : option Configuration * option error :=
  match r.2 with
  | Some e => (None, Some e)
  | None => (normalized r.1, None)
  end.

(** Directories nested at most [n] deep below [directory] (a directory that
    cannot be listed counts for nothing): the fuel the aggregator needs. *)
Inductive depthAtMost (filepath_Join : string → string → string) (w : World)
  : nat → string → Prop :=
| depth_unreadable n directory fileList e :
    ioutil_ReadDir w directory = (fileList, Some e) →
    depthAtMost filepath_Join w n directory
| depth_listing n directory fileList :
    ioutil_ReadDir w directory = (fileList, None) →
    (∀ item, item ∈ fileList → os.IsDir item = true →
             depthAtMost filepath_Join w n (filepath_Join directory (os.Name item))) →
    depthAtMost filepath_Join w (S n) directory.

(** The snapshots the walk merges, in the order it merges them: depth
    first, each listing in the order it was returned, a subdirectory where it
    is listed. Files that are skipped or fail to load contribute nothing. *)
Fixpoint mergedFiles (Create Decode : string → option Configuration * option error)
    (path_Join filepath_Join : string → string → string) (w : World)
    (fuel : nat) (directory : string) : list Configuration :=
  match fuel with
  | 0 => []
  | S fuel =>
      match ioutil_ReadDir w directory with
      | (_, Some _) => []
      | (fileList, None) =>
          flat_map
            (λ item,
               if os.IsDir item then
                 mergedFiles Create Decode path_Join filepath_Join w fuel
                   (filepath_Join directory (os.Name item))
               else if recognized item then
                 match loadFileConfig Create Decode w
                         (path_Join directory (os.Name item)) true with
                 | (Some c, None) => [c]
                 | _ => []
                 end
               else [])
            fileList
      end
  end.

(** The left-biased union of [m] with the mappings of kind [k] of the
    snapshots [cs], taken from left to right. *)
Definition unionAll (k : Kind) (m : gmap string ptr) (cs : list Configuration)
  : gmap string ptr :=
  foldl (λ m c, m ∪ mapping k c) m cs.

(** The mappings of kind [k] of [cs] share no name with [m] nor with each
    other. *)
Fixpoint disjointFrom (k : Kind) (m : gmap string ptr) (cs : list Configuration) : Prop :=
  match cs with
  | [] => True
  | c :: rest => m ##ₘ mapping k c ∧ disjointFrom k (m ∪ mapping k c) rest
  end.

(** The TLS entries the walk appends, one batch per directory it lists: the
    batches of the subdirectories in listing order, then the distinct entries
    of the files the directory holds directly. *)
Fixpoint tlsBatches (Create Decode : string → option Configuration * option error)
    (path_Join filepath_Join : string → string → string) (w : World)
    (fuel : nat) (directory : string) : list ptr :=
  match fuel with
  | 0 => []
  | S fuel =>
      match ioutil_ReadDir w directory with
      | (_, Some _) => []
      | (fileList, None) =>
          flat_map
            (λ item,
               if os.IsDir item then
                 tlsBatches Create Decode path_Join filepath_Join w fuel
                   (filepath_Join directory (os.Name item))
               else [])
            fileList
          ++ elements (ownTLS Create Decode path_Join w directory fileList)
      end
  end.

(** The accumulator a call starts from: the one it is given, or the empty
    one it creates. *)
Definition startFrom (acc : option Configuration) : Configuration :=
  default emptyConfiguration acc.

(** [c'] holds everything [c] holds: the same payload under every name of
    [c], and the TLS entries of [c] first. *)
Definition extends (c c' : Configuration) : Prop :=
  nonNilMaps c' ∧
  (∀ k, mapping k c ⊆ mapping k c') ∧
  default [] (TLS c) `prefix_of` default [] (TLS c').

(** The number of filesystem events in a history. *)
Fixpoint eventCount (trace : list (World * Signal)) : nat :=
  match trace with
  | [] => 0
  | (_, Events _) :: rest => S (eventCount rest)
  | _ :: rest => eventCount rest
  end.

(** The directory [Provide] asks the watcher to watch. *)
Definition watchedBy (filepath_Dir : string → string) (p : Provider) : string :=
  match targetOf p with
  | Some t => subscription filepath_Dir t
  | None => filepath_Dir ""
  end.

(** From [s] to [s'] the log has only grown, and only by warnings. *)
Definition onlyWarned (s s' : Runtime) : Prop :=
  ∃ l, logged s' = logged s ++ l ∧ Forall (λ e, log.level e = log.WarnLevel) l.

(** A name that holds no separator, and a path prefix that is empty or ends
    with a separator. *)
Definition noSeparator (f : string) : Prop :=
  ∀ j, String.get j f ≠ Some os.PathSeparator.

Definition directoryPrefix (d : string) : Prop :=
  d = "" ∨ String.get (String.length d - 1) d = Some os.PathSeparator.

(** A listed file that is skipped or loads without error. *)
Definition fileLoads (Create Decode : string → option Configuration * option error)
    (path_Join : string → string → string) (w : World) (directory : string)
    (item : os.FileInfo) : Prop :=
  os.IsDir item = false ∧
  (recognized item = true →
   (loadFileConfig Create Decode w (path_Join directory (os.Name item)) true).2 = None).

(** ** Concrete runs *)

Definition idOrder : RangeOrder :=
  {| order := λ _ A l, l; order_Permutation := λ _ A l, Permutation_refl l |}.

Definition revOrder : RangeOrder :=
  {| order := λ _ A l, rev l;
     order_Permutation := λ _ A l, Permutation_sym (Permutation_rev l) |}.

Definition slashJoin (directory name : string) : string := directory +:+ "/" +:+ name.

(** The parent directory of a path without trailing separator. *)
Definition slashDir (path : string) : string :=
  let d := (filepath_Split path).1 in String.substring 0 (String.length d - 1) d.

Definition emptyRuntime : Runtime := {| logged := []; ranges := 0; sent := []; tasks := [] |}.

Definition fileLogger : log.Logger := [(log.ProviderName, "file")].

(** A directory [/cfg] whose listing is not in lexicographic order: two
    files, a subdirectory holding a template, and a file that is not a
    configuration. The content of a file is its path, the decoder maps it to
    a snapshot. The address [7] is in a file of [/cfg] and in the file of
    [/cfg/sub]; the address [8] is in both files of [/cfg]. *)
Definition exampleWorld : World :=
  {| ioutil_ReadDir := λ directory,
       if String.eqb directory "/cfg" then
         ([ {| os.Name := "notes.txt"; os.IsDir := false |};
            {| os.Name := "b.toml"; os.IsDir := false |};
            {| os.Name := "a.toml"; os.IsDir := false |};
            {| os.Name := "sub"; os.IsDir := true |} ], None)
       else if String.eqb directory "/cfg/sub" then
         ([ {| os.Name := "c.tmpl"; os.IsDir := false |} ], None)
       else ([], Some (External "no such directory"));
     ioutil_ReadFile := λ filename, (filename, None);
     os_Stat := λ _, None;
     fsnotify_NewWatcher := None;
     fsnotify_Add := λ _, None |}.

Definition exampleDecode (content : string) : option Configuration * option error :=
  if String.eqb content "/cfg/b.toml" then
    (Some {| Routers := Some {[ "r1" := 1%positive ]}; Middlewares := None;
             Services := None; TLS := Some [7%positive; 8%positive] |}, None)
  else if String.eqb content "/cfg/a.toml" then
    (Some {| Routers := Some {[ "r1" := 2%positive; "r2" := 3%positive ]};
             Middlewares := None; Services := None; TLS := Some [8%positive] |}, None)
  else if String.eqb content "/cfg/sub/c.tmpl" then
    (Some {| Routers := None; Middlewares := None;
             Services := Some {[ "s1" := 4%positive ]}; TLS := Some [7%positive] |}, None)
  else if String.eqb content "/cfg/empty.toml" then
    (Some {| Routers := None; Middlewares := None; Services := None; TLS := None |}, None)
  else (None, Some (External "cannot decode")).

Definition directoryProvider : Provider :=
  {| Watch := true; Filename := ""; Directory := "/cfg"; TraefikFile := "" |}.

Definition fileProvider : Provider :=
  {| Watch := true; Filename := "/cfg/b.toml"; Directory := ""; TraefikFile := "" |}.

Definition fallbackProvider : Provider :=
  {| Watch := true; Filename := ""; Directory := ""; TraefikFile := "/cfg/a.toml" |}.

Definition emptyFileProvider : Provider :=
  {| Watch := false; Filename := "/cfg/empty.toml"; Directory := ""; TraefikFile := "" |}.

Definition noTargetProvider : Provider :=
  {| Watch := true; Filename := ""; Directory := ""; TraefikFile := "" |}.

(** The same world after the watched target has been removed. *)
Definition removedWorld : World :=
  {| ioutil_ReadDir := λ _, ([], Some (External "no such file or directory"));
     ioutil_ReadFile := λ _, ("", Some (External "no such file or directory"));
     os_Stat := λ _, Some (External "no such file or directory");
     fsnotify_NewWatcher := None;
     fsnotify_Add := λ _, None |}.

(** What the build of [/cfg] returns and logs when maps are iterated in the
    order of their elements. *)
Definition exampleSnapshot : Configuration :=
  {| Routers := Some {[ "r1" := 1%positive; "r2" := 3%positive ]};
     Middlewares := Some ∅;
     Services := Some {[ "s1" := 4%positive ]};
     TLS := Some [7%positive; 7%positive; 8%positive] |}.

Definition exampleRuntime : Runtime :=
  addLog [ nameWarning fileLogger log.RouterName "Router already configured, skipping" "r1";
           tlsWarning fileLogger 8%positive ] (tick 11 emptyRuntime).

(** What the build of the file [/cfg/b.toml] returns. *)
Definition fileSnapshot : Configuration :=
  {| Routers := Some {[ "r1" := 1%positive ]}; Middlewares := None; Services := None;
     TLS := Some [7%positive; 8%positive] |}.

(** What the build of [/cfg/sub] alone returns. *)
Definition subSnapshot : Configuration :=
  {| Routers := Some ∅; Middlewares := Some ∅;
     Services := Some {[ "s1" := 4%positive ]}; TLS := Some [7%positive] |}.

(** The accumulator after [b.toml], and what [a.toml] decodes to. *)
Definition accumulated : Configuration :=
  {| Routers := Some {[ "r1" := 1%positive ]}; Middlewares := Some ∅;
     Services := Some ∅; TLS := None |}.

Definition incoming : Configuration :=
  {| Routers := Some {[ "r1" := 2%positive; "r2" := 3%positive ]};
     Middlewares := None; Services := None; TLS := Some [8%positive] |}.

Definition changed (path : string) : fsnotify.Event := {| fsnotify.Name := path |}.

(** A provider with the three fields set, and a world where [/cfg] exists
    but cannot be listed. *)
Definition allTargetsProvider : Provider :=
  {| Watch := true; Filename := "/cfg/b.toml"; Directory := "/cfg";
     TraefikFile := "/cfg/a.toml" |}.

Definition unreadableWorld : World :=
  {| ioutil_ReadDir := λ _, ([], Some (External "permission denied"));
     ioutil_ReadFile := λ _, ("", Some (External "permission denied"));
     os_Stat := λ _, None;
     fsnotify_NewWatcher := None;
     fsnotify_Add := λ _, None |}.

(** A directory that holds nothing to load. *)
Definition notesWorld : World :=
  {| ioutil_ReadDir := λ directory,
       if String.eqb directory "/notes" then
         ([ {| os.Name := "README.md"; os.IsDir := false |};
            {| os.Name := "notes.txt"; os.IsDir := false |} ], None)
       else ([], Some (External "no such directory"));
     ioutil_ReadFile := λ _, ("", Some (External "no such file or directory"));
     os_Stat := λ _, None;
     fsnotify_NewWatcher := None;
     fsnotify_Add := λ _, None |}.

(** The directory [/cfg] with one more file, [broken.toml], listed between
    [b.toml] and [a.toml], and a subdirectory [locked] that cannot be listed;
    [exampleDecode] cannot decode [broken.toml]. *)
Definition brokenWorld : World :=
  {| ioutil_ReadDir := λ directory,
       if String.eqb directory "/cfg" then
         ([ {| os.Name := "b.toml"; os.IsDir := false |};
            {| os.Name := "broken.toml"; os.IsDir := false |};
            {| os.Name := "a.toml"; os.IsDir := false |} ], None)
       else if String.eqb directory "/etc" then
         ([ {| os.Name := "locked"; os.IsDir := true |} ], None)
       else ([], Some (External "permission denied"));
     ioutil_ReadFile := λ filename, (filename, None);
     os_Stat := λ _, None;
     fsnotify_NewWatcher := None;
     fsnotify_Add := λ _, None |}.

(** ** State and monad lemmas *)

Lemma addLog_nil s : addLog [] s = s.
Proof. destruct s; unfold addLog; simpl. by rewrite app_nil_r. Qed.

Lemma addLog_addLog l1 l2 s : addLog l2 (addLog l1 s) = addLog (l1 ++ l2) s.
Proof. unfold addLog; simpl. by rewrite app_assoc. Qed.

Lemma tick_addLog n l s : tick n (addLog l s) = addLog l (tick n s).
Proof. reflexivity. Qed.

Lemma tick_tick n m s : tick n (tick m s) = tick (n + m) s.
Proof. unfold tick; simpl. f_equal. lia. Qed.

Lemma bind_Done {A B} (m : Exec A) (k : A → Exec B) s a s' :
  m s = Done a s' → (m ≫= k) s = k a s'.
Proof. intros H. unfold mbind, Exec_bind. by rewrite H. Qed.

Lemma filter_agree {A} (P Q : A → Prop) `{∀ x, Decision (P x)} `{∀ x, Decision (Q x)}
    (l : list A) :
  Forall (λ x, P x ↔ Q x) l → filter P l = filter Q l.
Proof.
  induction 1 as [|x l Hx _ IH]; [done|].
  rewrite !filter_cons, IH. destruct (decide (P x)), (decide (Q x)); tauto.
Qed.

Lemma firstWins_union (acc incoming : gmap string ptr) :
  firstWins acc incoming (acc ∪ incoming).
Proof.
  split; intros name.
  - intros v Hv. by apply lookup_union_Some_l.
  - intros Hn. by rewrite lookup_union_r.
Qed.

(** ** The merge of one file (lines 237-267) *)

Section MergeLoop.
Variable rho : RangeOrder.
Variables (get : Configuration → option (gmap string ptr))
          (set : option (gmap string ptr) → Configuration → Configuration).
Hypothesis get_set : ∀ m c, get (set m c) = m.
Hypothesis set_set : ∀ m1 m2 c, set m2 (set m1 c) = set m2 c.
Hypothesis set_get : ∀ m c, get c = m → set m c = c.

Lemma mergeEntries_union logger field msg entries : ∀ cfg m0 s,
  NoDup entries.*1 → get cfg = Some m0 →
  mergeEntries logger field msg get set entries (Some cfg) s =
    Done (Some (set (Some (m0 ∪ list_to_map entries)) cfg))
         (addLog (nameWarning logger field msg <$>
                    (filter (λ e, is_Some (m0 !! e.1)) entries).*1) s).
Proof.
  induction entries as [|[name conf] rest IH]; intros cfg m0 s Hnd Hget.
  - simpl. rewrite (right_id_L ∅ (∪)), addLog_nil, set_get; done.
  - apply NoDup_cons in Hnd as [Hnotin Hnd]. simpl in *. rewrite Hget.
    destruct (m0 !! name) as [v|] eqn:Hm.
    + unfold mbind at 1, Exec_bind, Warn, emit.
      rewrite (IH cfg m0) by done.
      rewrite filter_cons_True by (simpl; eauto). simpl.
      f_equal.
      * do 2 f_equal. f_equal. apply map_eq. intros i.
        rewrite !lookup_union. destruct (decide (i = name)) as [->|].
        -- rewrite Hm. by destruct (<[name:=conf]> _ !! name), (list_to_map rest !! name).
        -- by rewrite lookup_insert_ne.
      * unfold addLog; simpl. by rewrite <- app_assoc.
    + rewrite (IH _ (<[name:=conf]> m0)) by (by rewrite ?get_set).
      rewrite set_set.
      rewrite filter_cons_False by (simpl; rewrite Hm; by intros [? ?]).
      f_equal.
      * do 3 f_equal. rewrite <- insert_union_l. rewrite insert_union_r by done. done.
      * f_equal. f_equal. f_equal. apply filter_agree.
        apply Forall_forall. intros [n v] Hin. simpl.
        assert (n ≠ name).
        { intros ->. apply Hnotin. apply list_elem_of_fmap. by exists (name, v). }
        by rewrite lookup_insert_ne.
Qed.
End MergeLoop.

Lemma collectTLS_spec logger confs : ∀ seen s,
  collectTLS logger confs seen s =
    Done (list_to_set confs ∪ seen) (addLog (tlsWarning logger <$> repeats confs seen) s).
Proof.
  induction confs as [|conf rest IH]; intros seen s; simpl.
  - rewrite addLog_nil. unfold mret, Exec_ret. f_equal. by rewrite (left_id_L ∅ (∪)).
  - destruct (decide (conf ∈ seen)).
    + unfold mbind, Exec_bind, Warnf, emit. rewrite IH. f_equal.
      { apply set_eq; intros x. rewrite !elem_of_union, elem_of_singleton.
        split; [intros [?|?]; auto | intros [[->|?]|?]; auto]. }
      unfold addLog; simpl. by rewrite <- app_assoc.
    + rewrite IH. f_equal. by rewrite (assoc_L (∪)), (comm_L (∪) _ {[conf]}).
Qed.

Section Merge.
Variable rho : RangeOrder.

Lemma rangeMap_spec (m : option (gmap string ptr)) s :
  ∃ l, rangeMap rho m s = Done l (tick 1 s) ∧ l ≡ₚ map_to_list (default ∅ m).
Proof. eexists. split; [reflexivity|]. apply order_Permutation. Qed.

Lemma conflicts_Permutation (acc incoming : gmap string ptr) (l : list (string * ptr)) :
  l ≡ₚ map_to_list incoming →
  (filter (λ e, is_Some (acc !! e.1)) l).*1 ≡ₚ elements (dom acc ∩ dom incoming).
Proof.
  intros Hl. apply NoDup_Permutation.
  - apply (sublist_NoDup _ (l.*1)).
    + rewrite Hl. apply NoDup_fst_map_to_list.
    + apply fmap_sublist, sublist_filter.
  - apply NoDup_elements.
  - intros name. rewrite elem_of_elements, elem_of_intersection, !elem_of_dom.
    rewrite list_elem_of_fmap. split.
    + intros [[n v] [-> [Hacc Hin]%list_elem_of_filter]]. simpl in *.
      split; [done|]. rewrite Hl in Hin. apply elem_of_map_to_list in Hin. eauto.
    + intros [Hacc [v Hv]]. exists (name, v). split; [done|].
      apply list_elem_of_filter. split; [done|]. rewrite Hl. by apply elem_of_map_to_list.
Qed.

Lemma list_to_map_range (incoming : gmap string ptr) (l : list (string * ptr)) :
  l ≡ₚ map_to_list incoming → NoDup l.*1 ∧ list_to_map l = incoming.
Proof.
  intros Hl. assert (NoDup l.*1) by (rewrite Hl; apply NoDup_fst_map_to_list).
  split; [done|]. rewrite <- (list_to_map_to_list incoming).
  by apply list_to_map_proper.
Qed.

(** What [mergeFile] computes on an accumulator whose three mappings are
    not [nil]: the result does not depend on the iteration orders, only
    the order of the warnings does. *)
Lemma mergeFile_spec logger c cfg seen s ra ma sa :
  Routers cfg = Some ra → Middlewares cfg = Some ma → Services cfg = Some sa →
  ∃ wr wm ws,
    mergeFile rho logger c (Some cfg) seen s
      = Done (Some {| Routers := Some (ra ∪ default ∅ (Routers c));
                      Middlewares := Some (ma ∪ default ∅ (Middlewares c));
                      Services := Some (sa ∪ default ∅ (Services c));
                      TLS := TLS cfg |},
              list_to_set (default [] (TLS c)) ∪ seen)
             (addLog (wr ++ wm ++ ws ++
                        (tlsWarning logger <$> repeats (default [] (TLS c)) seen))
                     (tick 3 s)) ∧
    wr ≡ₚ nameWarning logger log.RouterName "Router already configured, skipping"
            <$> elements (dom ra ∩ dom (default ∅ (Routers c))) ∧
    wm ≡ₚ nameWarning logger log.MiddlewareName "Middleware already configured, skipping"
            <$> elements (dom ma ∩ dom (default ∅ (Middlewares c))) ∧
    ws ≡ₚ nameWarning logger log.ServiceName "Service already configured, skipping"
            <$> elements (dom sa ∩ dom (default ∅ (Services c))).
Proof.
  intros Hr Hm Hs. unfold mergeFile.
  destruct (rangeMap_spec (Routers c) s) as (rs & Ers & Prs).
  destruct (list_to_map_range _ _ Prs) as [Nrs Lrs].
  rewrite (bind_Done _ _ _ _ _ Ers).
  erewrite bind_Done; cycle 1.
  { apply (mergeEntries_union Routers setRouters) with (m0 := ra); auto.
    intros ? [] <-; reflexivity. }
  set (s1 := addLog _ (tick 1 s)). set (c1 := setRouters _ cfg).
  destruct (rangeMap_spec (Middlewares c) s1) as (ms & Ems & Pms).
  destruct (list_to_map_range _ _ Pms) as [Nms Lms].
  rewrite (bind_Done _ _ _ _ _ Ems).
  erewrite bind_Done; cycle 1.
  { apply (mergeEntries_union Middlewares setMiddlewares) with (m0 := ma); auto.
    intros ? [] <-; reflexivity. }
  set (s2 := addLog _ (tick 1 s1)). set (c2 := setMiddlewares _ c1).
  destruct (rangeMap_spec (Services c) s2) as (ss & Ess & Pss).
  destruct (list_to_map_range _ _ Pss) as [Nss Lss].
  rewrite (bind_Done _ _ _ _ _ Ess).
  erewrite bind_Done; cycle 1.
  { apply (mergeEntries_union Services setServices) with (m0 := sa); auto.
    intros ? [] <-; reflexivity. }
  erewrite bind_Done by apply collectTLS_spec.
  subst s2 s1. rewrite !tick_addLog, !tick_tick, !addLog_addLog, <- ?app_assoc.
  subst c2 c1. unfold setServices, setMiddlewares, setRouters.
  cbn [Routers Middlewares Services TLS]. rewrite Lrs, Lms, Lss.
  eexists _, _, _. split; [reflexivity|].
  split; [by rewrite conflicts_Permutation|].
  split; by rewrite conflicts_Permutation.
Qed.

(** C1. Merging one decoded file [c] into an accumulator whose three
    mappings are not [nil] always returns; for routers, middlewares and
    services alike, a name the accumulator holds keeps its payload and a
    name it does not hold takes the payload of [c]; the log grows by one
    warning, carrying the kind and the name, for every name held by both,
    then by the warnings about TLS entries, and by nothing else. This holds
    for every order in which the run time iterates over the maps. *)
Theorem mergeFile_first_wins logger c cfg seen s ra ma sa :
  Routers cfg = Some ra → Middlewares cfg = Some ma → Services cfg = Some sa →
  ∃ cfg' seen' wr wm ws wt,
    mergeFile rho logger c (Some cfg) seen s
      = Done (Some cfg', seen') (addLog (wr ++ wm ++ ws ++ wt) (tick 3 s)) ∧
    (∃ r', Routers cfg' = Some r' ∧ firstWins ra (default ∅ (Routers c)) r') ∧
    (∃ m', Middlewares cfg' = Some m' ∧ firstWins ma (default ∅ (Middlewares c)) m') ∧
    (∃ s', Services cfg' = Some s' ∧ firstWins sa (default ∅ (Services c)) s') ∧
    wr ≡ₚ nameWarning logger log.RouterName "Router already configured, skipping"
            <$> elements (dom ra ∩ dom (default ∅ (Routers c))) ∧
    wm ≡ₚ nameWarning logger log.MiddlewareName "Middleware already configured, skipping"
            <$> elements (dom ma ∩ dom (default ∅ (Middlewares c))) ∧
    ws ≡ₚ nameWarning logger log.ServiceName "Service already configured, skipping"
            <$> elements (dom sa ∩ dom (default ∅ (Services c))) ∧
    (∃ dups, wt = tlsWarning logger <$> dups).
Proof.
  intros Hr Hm Hs.
  destruct (mergeFile_spec logger c cfg seen s ra ma sa Hr Hm Hs)
    as (wr & wm & ws & E & Pr & Pm & Ps).
  eexists _, _, wr, wm, ws, _. split; [exact E|]. cbn [Routers Middlewares Services].
  split; [eexists; split; [reflexivity|apply firstWins_union]|].
  split; [eexists; split; [reflexivity|apply firstWins_union]|].
  split; [eexists; split; [reflexivity|apply firstWins_union]|].
  repeat (split; [assumption|]). by eexists.
Qed.

End Merge.

Lemma mergeFile_first_wins_witness :
  ∃ cfg' seen' wr wm ws wt,
    mergeFile idOrder fileLogger incoming (Some accumulated) {[ 7%positive; 8%positive ]}
      emptyRuntime
      = Done (Some cfg', seen') (addLog (wr ++ wm ++ ws ++ wt) (tick 3 emptyRuntime)) ∧
    (∃ r', Routers cfg' = Some r' ∧
           firstWins {[ "r1" := 1%positive ]} (default ∅ (Routers incoming)) r') ∧
    (∃ m', Middlewares cfg' = Some m' ∧
           firstWins ∅ (default ∅ (Middlewares incoming)) m') ∧
    (∃ s', Services cfg' = Some s' ∧ firstWins ∅ (default ∅ (Services incoming)) s') ∧
    wr ≡ₚ nameWarning fileLogger log.RouterName "Router already configured, skipping"
            <$> elements (dom ({[ "r1" := 1%positive ]} : gmap string ptr)
                          ∩ dom (default ∅ (Routers incoming))) ∧
    wm ≡ₚ nameWarning fileLogger log.MiddlewareName
            "Middleware already configured, skipping"
            <$> elements (dom (∅ : gmap string ptr)
                          ∩ dom (default ∅ (Middlewares incoming))) ∧
    ws ≡ₚ nameWarning fileLogger log.ServiceName "Service already configured, skipping"
            <$> elements (dom (∅ : gmap string ptr)
                          ∩ dom (default ∅ (Services incoming))) ∧
    (∃ dups, wt = tlsWarning fileLogger <$> dups).
Proof.
  exact (mergeFile_first_wins idOrder fileLogger incoming accumulated
           {[ 7%positive; 8%positive ]} emptyRuntime {[ "r1" := 1%positive ]} ∅ ∅
           eq_refl eq_refl eq_refl).
Defined.

Lemma frame_refl s : frame s s.
Proof. by split. Qed.
Lemma frame_trans s1 s2 s3 : frame s1 s2 → frame s2 s3 → frame s1 s3.
Proof. intros [? ?] [? ?]; split; congruence. Qed.
Lemma frame_addLog_tick l n s : frame s (addLog l (tick n s)).
Proof. by split. Qed.

Lemma setTLS_same cfg : setTLS (TLS cfg) cfg = cfg.
Proof. by destruct cfg. Qed.

Lemma appendTLS_spec confs : ∀ cfg s,
  appendTLS confs (Some cfg) s = Done (Some (setTLS (appendedTLS (TLS cfg) confs) cfg)) s.
Proof.
  induction confs as [|conf rest IH]; intros cfg s.
  - simpl. by rewrite setTLS_same.
  - simpl. rewrite IH. unfold setTLS; simpl. do 3 f_equal.
    destruct rest; simpl; [done|]. by rewrite <- app_assoc.
Qed.

Lemma loadFileConfig_Some Create Decode w filename parseTemplate c :
  loadFileConfig Create Decode w filename parseTemplate = (c, None) → is_Some c.
Proof.
  unfold loadFileConfig. destruct (readFile w filename) as [content [e|]]; [done|].
  destruct (if parseTemplate then _ else _) as [c0 [e|]]; [done|].
  intros [= <-]. destruct (isBlank c0) eqn:Hb; [eauto|].
  destruct c0; [eauto|done].
Qed.

(** ** Invariants of the directory walk *)

Section Invariant.
Variable rho : RangeOrder.
Variable CreateConfiguration : string → option Configuration * option error.
Variable DecodeConfiguration : string → option Configuration * option error.
Variable path_Join : string → string → string.
Variable filepath_Join : string → string → string.
Variable w : World.

Variable I : Configuration → Prop.
Hypothesis I_maps : ∀ c, I c → nonNilMaps c.
Hypothesis I_merge : ∀ cfg c ra ma sa,
  I cfg → Routers cfg = Some ra → Middlewares cfg = Some ma → Services cfg = Some sa →
  I {| Routers := Some (ra ∪ default ∅ (Routers c));
       Middlewares := Some (ma ∪ default ∅ (Middlewares c));
       Services := Some (sa ∪ default ∅ (Services c));
       TLS := TLS cfg |}.
Hypothesis I_TLS : ∀ t c, I c → I (setTLS t c).

Lemma walkItems_keeps recurse logger directory :
  (∀ d cfg s, I cfg → keeps I s (recurse d (Some cfg) s)) →
  ∀ fileList cfg seen s, I cfg →
    keepsWalk I s (walkItems rho CreateConfiguration DecodeConfiguration path_Join
                   filepath_Join w recurse logger directory fileList (Some cfg) seen s).
Proof.
  intros Hrec. induction fileList as [|item rest IH]; intros cfg seen s HI.
  - simpl. split; [apply frame_refl|eauto].
  - cbn [walkItems]. destruct (os.IsDir item).
    + unfold mbind, Exec_bind. specialize (Hrec (filepath_Join directory (os.Name item)) cfg s HI).
      destruct (recurse _ _ s) as [[c' e] s'| |]; simpl in *; try done.
      destruct Hrec as [Hf Hc]. destruct e as [err|]; simpl.
      * by split.
      * destruct Hc as (cfg' & -> & HI'); [done|].
        specialize (IH cfg' seen s' HI').
        destruct (walkItems _ _ _ _ _ _ _ _ _ _ _ _ s') as [r s''| |]; simpl in *; try done.
        destruct IH as [Hf' Hr]. split; [by eapply frame_trans|done].
    + destruct (negb _ && negb _); [by apply IH|].
      destruct (loadFileConfig _ _ _ _ _) as [c e] eqn:Eload.
      destruct e as [err|]; [by split; [apply frame_refl|]|].
      destruct c as [c|]; [|by apply loadFileConfig_Some in Eload as [? ?]].
      destruct (I_maps _ HI) as ([ra Hr] & [ma Hm] & [sa Hs]).
      destruct (mergeFile_spec rho logger c cfg seen s ra ma sa Hr Hm Hs)
        as (wr & wm & ws & E & _).
      rewrite (bind_Done _ _ _ _ _ E). cbn [fst snd].
      match goal with |- keepsWalk _ _ (walkItems _ _ _ _ _ _ _ _ _ _ (Some ?c1) ?sn ?s1) =>
        specialize (IH c1 sn s1 (I_merge cfg c ra ma sa HI Hr Hm Hs));
        destruct (walkItems rho CreateConfiguration DecodeConfiguration path_Join
                   filepath_Join w recurse logger directory rest (Some c1) sn s1)
          as [r s''| |]; simpl in *; try done
      end.
Qed.

Lemma load_keeps fuel ctx : ∀ directory cfg s, I cfg →
  keeps I s (loadFileConfigFromDirectory rho CreateConfiguration DecodeConfiguration
             path_Join filepath_Join w fuel ctx directory (Some cfg) s).
Proof.
  induction fuel as [|fuel IH]; intros directory cfg s HI; [done|].
  cbn [loadFileConfigFromDirectory].
  destruct (ioutil_ReadDir w directory) as [fileList [err|]].
  { split; [apply frame_refl|done]. }
  pose proof (walkItems_keeps _ ctx directory IH fileList cfg ∅ s HI) as Hw.
  unfold mbind at 1, Exec_bind at 1.
  destruct (walkItems _ _ _ _ _ _ _ _ _ _ _ _ s) as [[[c' e]|[c' seen]] s'| |];
    simpl in Hw; try done.
  - by destruct Hw.
  - destruct Hw as [Hf (cfg' & -> & HI')].
    unfold mbind, Exec_bind, rangeSet. rewrite appendTLS_spec.
    split; [|intros _; eauto].
    destruct Hf as [? ?]; by split.
Qed.
End Invariant.

Lemma nonempty_length (x : string) : (0 <? String.length x)%nat = bool_decide (x ≠ "").
Proof. by destruct x. Qed.

Lemma nonNilMaps_empty : nonNilMaps emptyConfiguration.
Proof. repeat split; eauto. Qed.

Lemma targetOf_cases p :
  targetOf p =
    if (0 <? String.length (Directory p))%nat then Some (TargetDirectory (Directory p))
    else if (0 <? String.length (Filename p))%nat then Some (TargetFile (Filename p))
    else if (0 <? String.length (TraefikFile p))%nat
         then Some (TargetFallbackFile (TraefikFile p))
    else None.
Proof.
  unfold targetOf. rewrite !nonempty_length.
  repeat case_decide; repeat case_bool_decide; done.
Qed.

(** ** Builds *)

Section Build.
Variable rho : RangeOrder.
Variable CreateConfiguration : string → option Configuration * option error.
Variable DecodeConfiguration : string → option Configuration * option error.
Variable path_Join : string → string → string.
Variable filepath_Join : string → string → string.
Variable w : World.

Local Abbreviation load := (loadFileConfigFromDirectory rho CreateConfiguration
                          DecodeConfiguration path_Join filepath_Join w).
Local Abbreviation build := (BuildConfiguration rho CreateConfiguration
                          DecodeConfiguration path_Join filepath_Join w).

Lemma load_nil_keeps (I : Configuration → Prop) fuel ctx directory s :
  (∀ c, I c → nonNilMaps c) →
  (∀ cfg c ra ma sa,
    I cfg → Routers cfg = Some ra → Middlewares cfg = Some ma → Services cfg = Some sa →
    I {| Routers := Some (ra ∪ default ∅ (Routers c));
         Middlewares := Some (ma ∪ default ∅ (Middlewares c));
         Services := Some (sa ∪ default ∅ (Services c));
         TLS := TLS cfg |}) →
  (∀ t c, I c → I (setTLS t c)) →
  I emptyConfiguration →
  keeps I s (load fuel ctx directory None s).
Proof.
  intros H1 H2 H3 H0.
  pose proof (load_keeps rho CreateConfiguration DecodeConfiguration path_Join
                filepath_Join w I H1 H2 H3 fuel ctx directory emptyConfiguration s H0) as K.
  destruct fuel as [|fuel]; [done|]. cbn [loadFileConfigFromDirectory] in *.
  destruct (ioutil_ReadDir w directory) as [fileList [err|]]; [|exact K].
  split; [apply frame_refl|done].
Qed.

Lemma load_nil_good fuel ctx directory s :
  keeps nonNilMaps s (load fuel ctx directory None s).
Proof.
  apply load_nil_keeps.
  - auto.
  - intros cfg c ra ma sa _ _ _ _. repeat split; eauto.
  - intros t c (? & ? & ?). by repeat split.
  - apply nonNilMaps_empty.
Qed.

Lemma loadFileConfig_normalized filename parseTemplate c :
  loadFileConfig CreateConfiguration DecodeConfiguration w filename parseTemplate
    = (c, None) →
  ∃ content decoded, readFile w filename = (content, None) ∧
    (if parseTemplate then CreateConfiguration content else DecodeConfiguration content)
      = (decoded, None) ∧
    c = normalized decoded.
Proof.
  unfold loadFileConfig. destruct (readFile w filename) as [content [e|]]; [done|].
  destruct (if parseTemplate then _ else _) as [decoded [e|]] eqn:E; [done|].
  intros [= <-]. exists content, decoded. by repeat split.
Qed.

Lemma normalized_blank decoded : isBlank decoded = true → good (normalized decoded).
Proof.
  intros H. unfold normalized. rewrite H. exists emptyConfiguration.
  split; [done|apply nonNilMaps_empty].
Qed.

(** C2, amended. A successful build of a directory returns a snapshot
    whose three mappings are not [nil]. A successful build of a file returns
    what the decoder returned, replaced by the snapshot with three empty
    mappings exactly when the decoder returned no snapshot or one whose
    four fields are all [nil]; in that case the mappings are not [nil]. *)
Theorem built_snapshot_maps fuel p s c s' :
  build fuel p s = Done (c, None) s' →
  builtFrom CreateConfiguration DecodeConfiguration w (targetOf p) c.
Proof.
  unfold BuildConfiguration. rewrite targetOf_cases.
  destruct (0 <? String.length (Directory p))%nat.
  { intros E. pose proof (load_nil_good fuel (log.WithField log.ProviderName providerName [])
                            (Directory p) s) as K.
    rewrite E in K. destruct K as [_ (cfg & -> & Hc)]; [done|]. by exists cfg. }
  destruct (0 <? String.length (Filename p))%nat.
  { intros [= E <-]. destruct (loadFileConfig_normalized _ _ _ E) as (x & d & ? & ? & ->).
    exists x, d. eauto using normalized_blank. }
  destruct (0 <? String.length (TraefikFile p))%nat.
  { intros [= E <-]. destruct (loadFileConfig_normalized _ _ _ E) as (x & d & ? & ? & ->).
    exists x, d. eauto using normalized_blank. }
  done.
Qed.
End Build.

Lemma built_snapshot_maps_witness :
  builtFrom exampleDecode exampleDecode exampleWorld (targetOf emptyFileProvider)
    (Some emptyConfiguration).
Proof.
  apply (built_snapshot_maps idOrder exampleDecode exampleDecode slashJoin slashJoin
           exampleWorld 1 emptyFileProvider emptyRuntime (Some emptyConfiguration)
           emptyRuntime).
  vm_compute. reflexivity.
Defined.

(** C2, counterexample. The file [/cfg/b.toml] defines a router and two TLS
    entries, no middleware and no service: its build succeeds and returns a
    snapshot whose middlewares mapping is [nil]. *)
Lemma single_file_nil_mapping :
  ∃ cfg s',
    BuildConfiguration idOrder exampleDecode exampleDecode slashJoin slashJoin
      exampleWorld 1 fileProvider emptyRuntime = Done (Some cfg, None) s' ∧
    Middlewares cfg = None ∧ ¬ nonNilMaps cfg.
Proof.
  eexists _, _. split; [vm_compute; reflexivity|]. split; [reflexivity|].
  intros (_ & [m Hm] & _). discriminate Hm.
Qed.

Lemma repeats_count confs : ∀ seen : gset ptr,
  length (repeats confs seen) + size (list_to_set confs ∪ seen) = length confs + size seen.
Proof.
  induction confs as [|conf rest IH]; intros seen; simpl.
  - by rewrite (left_id_L ∅ (∪)).
  - destruct (decide (conf ∈ seen)) as [Hin|Hnin]; simpl.
    + specialize (IH seen).
      replace ({[conf]} ∪ list_to_set rest ∪ seen)
        with (list_to_set rest ∪ seen : gset ptr); [lia|].
      apply set_eq; intros x. rewrite !elem_of_union, elem_of_singleton.
      split; [intros [?|?]; auto | intros [[->|?]|?]; auto].
    + specialize (IH ({[conf]} ∪ seen)).
      rewrite (size_union {[conf]} seen) in IH by (apply disjoint_singleton_l; exact Hnin).
      rewrite size_singleton in IH.
      replace ({[conf]} ∪ list_to_set rest ∪ seen)
        with (list_to_set rest ∪ ({[conf]} ∪ seen) : gset ptr); [lia|].
      apply set_eq; intros x. rewrite !elem_of_union. tauto.
Qed.

Lemma mergeEntries_TLS logger field msg get set :
  (∀ m c, TLS (set m c) = TLS c) →
  ∀ entries co s co' s',
    mergeEntries logger field msg get set entries co s = Done co' s' →
    TLS <$> co' = TLS <$> co.
Proof.
  intros Hset. induction entries as [|[name conf] rest IH]; intros co s co' s'; simpl.
  - by intros [= <- _].
  - destruct co as [cfg|]; [|done]. destruct (get cfg) as [m|]; [|done].
    destruct (m !! name).
    + unfold mbind, Exec_bind, Warn, emit. apply IH.
    + intros E. apply IH in E. rewrite E. simpl. by rewrite Hset.
Qed.

(** ** TLS entries in the directory walk *)

Section Walk.
Variable rho : RangeOrder.
Variable CreateConfiguration : string → option Configuration * option error.
Variable DecodeConfiguration : string → option Configuration * option error.
Variable path_Join : string → string → string.
Variable filepath_Join : string → string → string.
Variable w : World.

Local Abbreviation load := (loadFileConfigFromDirectory rho CreateConfiguration
                          DecodeConfiguration path_Join filepath_Join w).
Local Abbreviation walk := (walkItems rho CreateConfiguration
                          DecodeConfiguration path_Join filepath_Join w).
Local Abbreviation own := (ownTLS CreateConfiguration DecodeConfiguration path_Join w).

Lemma mergeFile_seen logger c co seen s co' seen' s' :
  mergeFile rho logger c co seen s = Done (co', seen') s' →
  seen' = list_to_set (default [] (TLS c)) ∪ seen ∧ TLS <$> co' = TLS <$> co.
Proof.
  unfold mergeFile, mbind, Exec_bind, rangeMap.
  destruct (mergeEntries _ _ _ Routers _ _ _ _) as [c1 s1| |] eqn:E1; [|done..].
  destruct (mergeEntries _ _ _ Middlewares _ _ _ _) as [c2 s2| |] eqn:E2; [|done..].
  destruct (mergeEntries _ _ _ Services _ _ _ _) as [c3 s3| |] eqn:E3; [|done..].
  rewrite collectTLS_spec. intros [= <- <- _]. split; [done|].
  apply mergeEntries_TLS in E1, E2, E3; try by intros ? [].
  congruence.
Qed.

Lemma walkItems_seen recurse logger directory : ∀ fileList co seen s co' seen' s',
  walk recurse logger directory fileList co seen s = Done (inr (co', seen')) s' →
  seen' = seen ∪ own directory fileList.
Proof.
  induction fileList as [|item rest IH]; intros co seen s co' seen' s'.
  - simpl. intros [= _ <- _]. by rewrite (right_id_L ∅ (∪)).
  - cbn [walkItems ownTLS]. destruct (os.IsDir item).
    + unfold mbind, Exec_bind. destruct (recurse _ _ s) as [[c1 [e|]] s1| |]; try done.
      simpl. intros E. apply IH in E. by rewrite (left_id_L ∅ (∪)).
    + destruct (negb _ && negb _).
      { intros E. apply IH in E. by rewrite (left_id_L ∅ (∪)). }
      destruct (loadFileConfig _ _ _ _ _) as [[c|] [e|]]; try done.
      unfold mbind, Exec_bind.
      destruct (mergeFile _ _ _ _ _ _) as [[c1 seen1] s1| |] eqn:E1; try done.
      apply mergeFile_seen in E1 as [-> _]. simpl. intros E. apply IH in E. subst seen'.
      apply set_eq; intros x. rewrite !elem_of_union. tauto.
Qed.

Lemma walkItems_flat_TLS recurse logger directory : ∀ fileList co seen s co' seen' s',
  Forall (λ item, os.IsDir item = false) fileList →
  walk recurse logger directory fileList co seen s = Done (inr (co', seen')) s' →
  TLS <$> co' = TLS <$> co.
Proof.
  induction fileList as [|item rest IH]; intros co seen s co' seen' s' Hflat.
  - simpl. by intros [= <- _ _].
  - apply Forall_cons in Hflat as [Hitem Hflat]. cbn [walkItems]. rewrite Hitem.
    destruct (negb _ && negb _); [by apply IH|].
    destruct (loadFileConfig _ _ _ _ _) as [[c|] [e|]]; try done.
    unfold mbind, Exec_bind.
    destruct (mergeFile _ _ _ _ _ _) as [[c1 seen1] s1| |] eqn:E1; try done.
    apply mergeFile_seen in E1 as [_ <-]. simpl. by apply IH.
Qed.

(** C3, amended. Within one call of the aggregator, an address met again in
    the files of the directory being listed is not added again and costs one
    warning: every occurrence either enlarges the set of the call or is
    logged. When the call succeeds, the TLS collection it returns ends with
    the addresses of the recognized files the listing holds directly, each
    exactly once; in a listing without subdirectory they follow the TLS
    collection the accumulator came with. The set is per call: nothing is
    said about an address that is also in another directory. *)
Theorem tls_deduplicated_per_directory logger confs seen s0
    fuel ctx directory acc s fileList cfg' s' :
  (collectTLS logger confs seen s0
     = Done (list_to_set confs ∪ seen) (addLog (tlsWarning logger <$> repeats confs seen) s0) ∧
   length (repeats confs seen) + size (list_to_set confs ∪ seen)
     = length confs + size seen) ∧
  (ioutil_ReadDir w directory = (fileList, None) →
   load fuel ctx directory acc s = Done (Some cfg', None) s' →
   ∃ before new,
     default [] (TLS cfg') = before ++ new ∧ NoDup new ∧
     (∀ conf, conf ∈ new ↔ conf ∈ own directory fileList) ∧
     (Forall (λ item, os.IsDir item = false) fileList →
      before = default [] (acc ≫= TLS))).
Proof.
  split; [split; [apply collectTLS_spec|apply repeats_count]|].
  intros Hdir. destruct fuel as [|fuel]; [done|].
  cbn [loadFileConfigFromDirectory]. rewrite Hdir.
  unfold mbind at 1, Exec_bind at 1.
  destruct (walkItems _ _ _ _ _ _ _ _ _ _ _ _ s) as [[[c1 e]|[c1 seen1]] s1| |] eqn:Ew;
    try done.
  unfold mbind, Exec_bind, rangeSet.
  destruct c1 as [cfg1|].
  2:{ destruct (order rho _ _ _); simpl; done. }
  rewrite appendTLS_spec. intros [= <- _].
  pose proof (walkItems_seen _ _ _ _ _ _ _ _ _ _ Ew) as Hseen.
  rewrite (left_id_L ∅ (∪)) in Hseen. subst seen1.
  set (new := order rho (ranges s1) positive (elements (own directory fileList))).
  assert (Hperm : new ≡ₚ elements (own directory fileList)) by apply order_Permutation.
  exists (default [] (TLS cfg1)), new. split; [|split; [|split]].
  - unfold setTLS, appendedTLS; simpl. destruct new; simpl; [by rewrite app_nil_r|done].
  - rewrite Hperm. apply NoDup_elements.
  - intros conf. by rewrite Hperm, elem_of_elements.
  - intros Hflat. apply (walkItems_flat_TLS _ _ _ _ _ _ _ _ _ _ Hflat) in Ew.
    destruct acc as [a|]; simpl in Ew; injection Ew as ->; done.
Qed.
End Walk.

Lemma tls_deduplicated_per_directory_witness :
  (collectTLS fileLogger [7%positive; 8%positive; 8%positive] {[ 7%positive ]} emptyRuntime
     = Done (list_to_set [7%positive; 8%positive; 8%positive] ∪ {[ 7%positive ]})
            (addLog (tlsWarning fileLogger
                       <$> repeats [7%positive; 8%positive; 8%positive] {[ 7%positive ]})
                    emptyRuntime) ∧
   length (repeats [7%positive; 8%positive; 8%positive] {[ 7%positive ]})
     + size (list_to_set [7%positive; 8%positive; 8%positive] ∪ {[ 7%positive ]} : gset ptr)
     = length [7%positive; 8%positive; 8%positive] + size ({[ 7%positive ]} : gset ptr)) ∧
  ∃ before new,
    default [] (TLS subSnapshot) = before ++ new ∧
    NoDup new ∧
    (∀ conf, conf ∈ new ↔
       conf ∈ ownTLS exampleDecode exampleDecode slashJoin exampleWorld "/cfg/sub"
                [ {| os.Name := "c.tmpl"; os.IsDir := false |} ]) ∧
    (Forall (λ item, os.IsDir item = false) [ {| os.Name := "c.tmpl"; os.IsDir := false |} ] →
     before = default [] (None ≫= TLS)).
Proof.
  pose proof (tls_deduplicated_per_directory idOrder exampleDecode exampleDecode slashJoin
                slashJoin exampleWorld fileLogger [7%positive; 8%positive; 8%positive]
                {[ 7%positive ]} emptyRuntime 1 fileLogger "/cfg/sub" None emptyRuntime
                [ {| os.Name := "c.tmpl"; os.IsDir := false |} ]
                subSnapshot (tick 4 emptyRuntime)) as [H1 H2].
  split; [exact H1|]. apply H2; vm_compute; reflexivity.
Defined.

(** C3, counterexample. In [/cfg] the address [7] is in [b.toml] and in
    [sub/c.tmpl], the address [8] in [b.toml] and in [a.toml]: the build
    succeeds, its TLS collection holds [7] twice, and the second [8] is
    logged with a warning. *)
Lemma tls_entry_twice_across_directories :
  ∃ cfg s',
    BuildConfiguration idOrder exampleDecode exampleDecode slashJoin slashJoin
      exampleWorld 2 directoryProvider emptyRuntime = Done (Some cfg, None) s' ∧
    TLS cfg = Some [7%positive; 7%positive; 8%positive] ∧
    count_occ Pos.eq_dec (default [] (TLS cfg)) 7%positive = 2 ∧
    logged s' = [ nameWarning fileLogger log.RouterName
                    "Router already configured, skipping" "r1";
                  tlsWarning fileLogger 8%positive ].
Proof.
  eexists _, _. split; [vm_compute; reflexivity|]. repeat split; reflexivity.
Qed.

Lemma bind_eq {A B} (m : Exec A) (k : A → Exec B) s :
  (m ≫= k) s = match m s with
                | Done a s' => k a s'
                | Panic s' => Panic s'
                | OutOfFuel => OutOfFuel
                end.
Proof. reflexivity. Qed.

Lemma sameTLS_appended t1 t2 l1 l2 :
  sameTLS t1 t2 → l1 ≡ₚ l2 → sameTLS (appendedTLS t1 l1) (appendedTLS t2 l2).
Proof.
  intros Ht Hl. destruct l1 as [|x l1].
  - apply Permutation_nil in Hl as ->. exact Ht.
  - destruct l2 as [|y l2]; [by apply Permutation_sym, Permutation_nil in Hl|].
    simpl. apply Permutation_app; [|done].
    destruct t1, t2; simpl in *; done.
Qed.

Lemma sameSnapshot_refl c : sameSnapshot c c.
Proof.
  do 3 (split; [reflexivity|]). unfold sameTLS. destruct (TLS c); [reflexivity|exact I].
Qed.

Lemma nonNilMaps_merge ra ma sa t :
  nonNilMaps {| Routers := Some ra; Middlewares := Some ma; Services := Some sa; TLS := t |}.
Proof. repeat split; eauto. Qed.

Lemma nonNilMaps_setTLS t c : nonNilMaps c → nonNilMaps (setTLS t c).
Proof. intros (? & ? & ?). by repeat split. Qed.

(** ** The mappings of the accumulator are never [nil] *)

Section Good.
Variable rho : RangeOrder.
Variable CreateConfiguration : string → option Configuration * option error.
Variable DecodeConfiguration : string → option Configuration * option error.
Variable path_Join : string → string → string.
Variable filepath_Join : string → string → string.
Variable w : World.

Lemma walkItems_good recurse logger directory :
  (∀ d cfg s, nonNilMaps cfg → keeps nonNilMaps s (recurse d (Some cfg) s)) →
  ∀ fileList cfg seen s, nonNilMaps cfg →
    keepsWalk nonNilMaps s
      (walkItems rho CreateConfiguration DecodeConfiguration path_Join filepath_Join w
         recurse logger directory fileList (Some cfg) seen s).
Proof.
  apply walkItems_keeps; auto using nonNilMaps_setTLS.
  intros. apply nonNilMaps_merge.
Qed.

Lemma load_good fuel ctx directory cfg s :
  nonNilMaps cfg →
  keeps nonNilMaps s
    (loadFileConfigFromDirectory rho CreateConfiguration DecodeConfiguration path_Join
       filepath_Join w fuel ctx directory (Some cfg) s).
Proof.
  apply load_keeps; auto using nonNilMaps_setTLS.
  intros. apply nonNilMaps_merge.
Qed.
End Good.

(** ** Two runs on the same directory tree *)

Section TwoRuns.
Variables rho1 rho2 : RangeOrder.
Variable CreateConfiguration : string → option Configuration * option error.
Variable DecodeConfiguration : string → option Configuration * option error.
Variable path_Join : string → string → string.
Variable filepath_Join : string → string → string.
Variable w : World.

Local Abbreviation load1 := (loadFileConfigFromDirectory rho1 CreateConfiguration
                          DecodeConfiguration path_Join filepath_Join w).
Local Abbreviation load2 := (loadFileConfigFromDirectory rho2 CreateConfiguration
                          DecodeConfiguration path_Join filepath_Join w).
Local Abbreviation walk1 := (walkItems rho1 CreateConfiguration
                          DecodeConfiguration path_Join filepath_Join w).
Local Abbreviation walk2 := (walkItems rho2 CreateConfiguration
                          DecodeConfiguration path_Join filepath_Join w).

Lemma walkItems_same rec1 rec2 logger directory :
  (∀ d c1 c2 s1 s2, nonNilMaps c1 → nonNilMaps c2 → sameSnapshot c1 c2 →
     keeps nonNilMaps s1 (rec1 d (Some c1) s1) ∧ keeps nonNilMaps s2 (rec2 d (Some c2) s2) ∧
     sameBuild (rec1 d (Some c1) s1) (rec2 d (Some c2) s2)) →
  ∀ fileList c1 c2 seen s1 s2, nonNilMaps c1 → nonNilMaps c2 → sameSnapshot c1 c2 →
    sameWalk (walk1 rec1 logger directory fileList (Some c1) seen s1)
             (walk2 rec2 logger directory fileList (Some c2) seen s2).
Proof.
  intros Hrec. induction fileList as [|item rest IH]; intros c1 c2 seen s1 s2 G1 G2 Hs.
  - simpl. by split.
  - cbn [walkItems]. destruct (os.IsDir item).
    + unfold mbind, Exec_bind.
      destruct (Hrec (filepath_Join directory (os.Name item)) c1 c2 s1 s2 G1 G2 Hs)
        as (K1 & K2 & Hb).
      destruct (rec1 _ _ s1) as [[r1 e1] t1| |], (rec2 _ _ s2) as [[r2 e2] t2| |];
        simpl in *; try done.
      destruct Hb as [Hr <-]. destruct e1 as [e|]; [by split|].
      destruct K1 as [_ (d1 & -> & D1)]; [done|].
      destruct K2 as [_ (d2 & -> & D2)]; [done|].
      by apply IH.
    + destruct (negb _ && negb _); [by apply IH|].
      destruct (loadFileConfig _ _ _ _ _) as [c e] eqn:Eload.
      destruct e as [err|]; [by split|].
      destruct c as [c|]; [|by apply loadFileConfig_Some in Eload as [? ?]].
      destruct G1 as ([ra1 Hr1] & [ma1 Hm1] & [sa1 Hv1]).
      destruct G2 as ([ra2 Hr2] & [ma2 Hm2] & [sa2 Hv2]).
      destruct (mergeFile_spec rho1 logger c c1 seen s1 _ _ _ Hr1 Hm1 Hv1)
        as (? & ? & ? & E1 & _).
      destruct (mergeFile_spec rho2 logger c c2 seen s2 _ _ _ Hr2 Hm2 Hv2)
        as (? & ? & ? & E2 & _).
      rewrite (bind_Done _ _ _ _ _ E1), (bind_Done _ _ _ _ _ E2). cbn [fst snd].
      destruct Hs as (Hsr & Hsm & Hsv & Hst).
      assert (ra1 = ra2) as -> by congruence.
      assert (ma1 = ma2) as -> by congruence.
      assert (sa1 = sa2) as -> by congruence.
      apply IH; repeat split; eauto.
Qed.

Lemma load_same fuel ctx : ∀ d c1 c2 s1 s2,
  nonNilMaps c1 → nonNilMaps c2 → sameSnapshot c1 c2 →
  keeps nonNilMaps s1 (load1 fuel ctx d (Some c1) s1) ∧
  keeps nonNilMaps s2 (load2 fuel ctx d (Some c2) s2) ∧
  sameBuild (load1 fuel ctx d (Some c1) s1) (load2 fuel ctx d (Some c2) s2).
Proof.
  induction fuel as [|fuel IH]; intros d c1 c2 s1 s2 G1 G2 Hs; [done|].
  split; [by apply load_good|]. split; [by apply load_good|].
  cbn [loadFileConfigFromDirectory].
  destruct (ioutil_ReadDir w d) as [fileList [err|]]; [by split|].
  pose proof (walkItems_same _ _ ctx d IH fileList c1 c2 ∅ s1 s2 G1 G2 Hs) as Hw.
  pose proof (walkItems_good rho1 CreateConfiguration DecodeConfiguration path_Join
                filepath_Join w _ ctx d
                (λ d c s G, proj1 (IH d c c s s G G (sameSnapshot_refl c)))
                fileList c1 ∅ s1 G1) as Hk1.
  rewrite !bind_eq.
  destruct (walkItems rho1 _ _ _ _ _ _ _ _ _ _ _ s1) as [[[r1 e1]|[r1 n1]] t1| |],
           (walkItems rho2 _ _ _ _ _ _ _ _ _ _ _ s2) as [[[r2 e2]|[r2 n2]] t2| |];
    simpl in Hw; try done.
  - destruct Hw as [? <-]. by split.
  - destruct Hw as [Hr <-]. destruct Hk1 as [_ (d1 & -> & _)].
    destruct r2 as [d2|]; [|done].
    unfold mbind, Exec_bind, rangeSet. rewrite !appendTLS_spec. split; [|done].
    destruct Hr as (? & ? & ? & ?). repeat split; try done.
    cbn [setTLS TLS]. apply sameTLS_appended; [done|].
    by rewrite !order_Permutation.
Qed.

(** C8, amended. Two runs of the aggregator on the same directory tree, with
    the same decoder, whatever the iteration orders of the two runs and the
    states they start in, end alike: with the same error or none, the same
    routers, middlewares and services, and TLS collections that hold the same
    entries, the order of which may differ. *)
Theorem aggregator_deterministic_up_to_TLS_order fuel ctx directory s1 s2 :
  sameBuild (load1 fuel ctx directory None s1) (load2 fuel ctx directory None s2).
Proof.
  destruct fuel as [|fuel]; [done|].
  destruct (load_same (S fuel) ctx directory emptyConfiguration emptyConfiguration s1 s2
              nonNilMaps_empty nonNilMaps_empty (sameSnapshot_refl _)) as (_ & _ & H).
  cbn [loadFileConfigFromDirectory] in *.
  destruct (ioutil_ReadDir w directory) as [fileList [err|]]; [by split|exact H].
Qed.
End TwoRuns.

(** C8, counterexample. Two runs on [/cfg], one iterating in the order of
    the elements and one in the reverse order, return TLS collections in
    different orders: the snapshots differ. *)
Lemma tls_order_follows_iteration_order :
  ∃ c1 c2 t1 t2,
    loadFileConfigFromDirectory idOrder exampleDecode exampleDecode slashJoin slashJoin
      exampleWorld 2 fileLogger "/cfg" None emptyRuntime = Done (Some c1, None) t1 ∧
    loadFileConfigFromDirectory revOrder exampleDecode exampleDecode slashJoin slashJoin
      exampleWorld 2 fileLogger "/cfg" None emptyRuntime = Done (Some c2, None) t2 ∧
    TLS c1 = Some [7%positive; 7%positive; 8%positive] ∧
    TLS c2 = Some [7%positive; 8%positive; 7%positive] ∧
    c1 ≠ c2.
Proof.
  eexists _, _, _, _. split; [vm_compute; reflexivity|].
  split; [vm_compute; reflexivity|]. split; [reflexivity|]. split; [reflexivity|].
  intros H. apply (f_equal TLS) in H. discriminate H.
Qed.

Lemma mapping_merge k (ra ma sa : gmap string ptr) c t :
  mapping k {| Routers := Some (ra ∪ default ∅ (Routers c));
               Middlewares := Some (ma ∪ default ∅ (Middlewares c));
               Services := Some (sa ∪ default ∅ (Services c)); TLS := t |}
  = mapping k {| Routers := Some ra; Middlewares := Some ma; Services := Some sa; TLS := t |}
    ∪ mapping k c.
Proof. by destruct k. Qed.

Lemma mapping_known k cfg ra ma sa :
  Routers cfg = Some ra → Middlewares cfg = Some ma → Services cfg = Some sa →
  mapping k cfg
  = mapping k {| Routers := Some ra; Middlewares := Some ma; Services := Some sa;
                 TLS := TLS cfg |}.
Proof. intros Hr Hm Hs. destruct k; unfold mapping; simpl; by rewrite ?Hr, ?Hm, ?Hs. Qed.

Lemma mapping_setTLS k t c : mapping k (setTLS t c) = mapping k c.
Proof. by destruct k. Qed.

Lemma recognized_skip item :
  negb (HasSuffix (os.Name item) ".toml") && negb (HasSuffix (os.Name item) ".tmpl")
  = negb (recognized item).
Proof. unfold recognized. by rewrite negb_orb. Qed.

(** ** The order of the listing decides the winner *)

Section Winner.
Variable rho : RangeOrder.
Variable CreateConfiguration : string → option Configuration * option error.
Variable DecodeConfiguration : string → option Configuration * option error.
Variable path_Join : string → string → string.
Variable filepath_Join : string → string → string.
Variable w : World.

Local Abbreviation load := (loadFileConfigFromDirectory rho CreateConfiguration
                          DecodeConfiguration path_Join filepath_Join w).
Local Abbreviation walk := (walkItems rho CreateConfiguration
                          DecodeConfiguration path_Join filepath_Join w).

Variables (k : Kind) (name : string) (v : ptr).

Local Abbreviation defines := (defines k name v).

Lemma defines_merge cfg c ra ma sa :
  defines cfg → Routers cfg = Some ra → Middlewares cfg = Some ma → Services cfg = Some sa →
  defines {| Routers := Some (ra ∪ default ∅ (Routers c));
             Middlewares := Some (ma ∪ default ∅ (Middlewares c));
             Services := Some (sa ∪ default ∅ (Services c));
             TLS := TLS cfg |}.
Proof.
  intros [_ Hv] Hr Hm Hs. split; [apply nonNilMaps_merge|].
  rewrite mapping_merge. apply lookup_union_Some_l.
  by rewrite <- (mapping_known k cfg ra ma sa).
Qed.

Lemma defines_setTLS t c : defines c → defines (setTLS t c).
Proof. intros [? ?]. split; [by apply nonNilMaps_setTLS|by rewrite mapping_setTLS]. Qed.

Lemma load_defines fuel ctx directory cfg s :
  defines cfg → keeps defines s (load fuel ctx directory (Some cfg) s).
Proof.
  apply load_keeps;
    first [ by intros c0 [? _] | intros; by apply defines_merge
          | intros; by apply defines_setTLS ].
Qed.

Lemma walkItems_defines recurse logger directory :
  (∀ d cfg s, defines cfg → keeps defines s (recurse d (Some cfg) s)) →
  ∀ fileList cfg seen s, defines cfg →
    keepsWalk defines s (walk recurse logger directory fileList (Some cfg) seen s).
Proof.
  apply walkItems_keeps;
    first [ by intros c0 [? _] | intros; by apply defines_merge
          | intros; by apply defines_setTLS ].
Qed.

(** A prefix of files that do not define the name leaves an accumulator that
    does not define it, unless one of them stops the walk with an error. *)
Lemma walkItems_before recurse logger directory rest : ∀ before cfg seen s,
  Forall (fileLacks CreateConfiguration DecodeConfiguration path_Join w directory k name)
         before →
  lacks k name (Some cfg) →
  (∃ r s1, walk recurse logger directory (before ++ rest) (Some cfg) seen s
             = Done (inl r) s1) ∨
  (∃ cfg1 seen1 s1, lacks k name (Some cfg1) ∧
     walk recurse logger directory (before ++ rest) (Some cfg) seen s
       = walk recurse logger directory rest (Some cfg1) seen1 s1).
Proof.
  induction before as [|item before IH]; intros cfg seen s Hb Hl.
  - right. by exists cfg, seen, s.
  - apply Forall_cons in Hb as [[Hfile Hitem] Hb].
    rewrite <- app_comm_cons. cbn [walkItems]. rewrite Hfile, recognized_skip.
    destruct (recognized item) eqn:Hrec; simpl; [|by apply IH].
    destruct (loadFileConfig _ _ _ _ _) as [c e] eqn:Eload.
    destruct e as [err|]; [left; by eexists _, _|].
    destruct c as [c|]; [|by apply loadFileConfig_Some in Eload as [? ?]].
    destruct Hl as [G Hn]. pose proof G as ([ra Hr] & [ma Hm] & [sa Hs]).
    destruct (mergeFile_spec rho logger c cfg seen s ra ma sa Hr Hm Hs)
      as (? & ? & ? & E & _).
    rewrite (bind_Done _ _ _ _ _ E). cbn [fst snd]. apply IH; [done|].
    split; [apply nonNilMaps_merge|]. rewrite mapping_merge.
    apply lookup_union_None. split; [|by apply Hitem].
    by rewrite <- (mapping_known k cfg ra ma sa).
Qed.

End Winner.


Lemma targetPath_cases p :
  targetPath (targetOf p) =
    if (0 <? String.length (Directory p))%nat then Directory p
    else if (0 <? String.length (Filename p))%nat then Filename p
    else TraefikFile p.
Proof.
  rewrite targetOf_cases.
  destruct (0 <? String.length (Directory p))%nat; [done|].
  destruct (0 <? String.length (Filename p))%nat; [done|].
  destruct (TraefikFile p); done.
Qed.

Lemma eqb_empty (x : string) : String.eqb x "" = negb (0 <? String.length x)%nat.
Proof. by destruct x. Qed.

(** ** The filename component of a path *)

Lemma get_ge (s : string) : ∀ n, (String.length s ≤ n)%nat → String.get n s = None.
Proof.
  induction s as [|c s IH]; intros n Hn; [done|].
  destruct n as [|n]; simpl in *; [lia|]. apply IH. lia.
Qed.

Lemma length_substring (s : string) : ∀ n m,
  (n + m ≤ String.length s)%nat → String.length (String.substring n m s) = m.
Proof.
  induction s as [|c s IH]; intros n m Hn; simpl in *.
  - destruct n, m; simpl; lia.
  - destruct n as [|n].
    + destruct m as [|m]; simpl; [done|]. f_equal. apply IH. lia.
    + apply IH. lia.
Qed.

Lemma splitIndex_spec path : ∀ k,
  (splitIndex path k ≤ k)%nat ∧
  (splitIndex path k = 0 ∨ String.get (splitIndex path k - 1) path = Some os.PathSeparator) ∧
  (∀ j, (splitIndex path k ≤ j < k)%nat → String.get j path ≠ Some os.PathSeparator).
Proof.
  induction k as [|k (IH1 & IH2 & IH3)]; simpl.
  - split; [done|]. split; [by left|]. intros j Hj. lia.
  - destruct (String.get k path) as [c|] eqn:Hget.
    + unfold os.IsPathSeparator. destruct (Ascii.eqb c os.PathSeparator) eqn:Hc.
      * apply Ascii.eqb_eq in Hc as ->. split; [done|]. split.
        -- right. simpl. by rewrite Nat.sub_0_r.
        -- intros j Hj. lia.
      * apply Ascii.eqb_neq in Hc. split; [lia|]. split; [done|].
        intros j Hj. destruct (decide (j = k)) as [->|].
        -- rewrite Hget. by intros [= ->].
        -- apply IH3. lia.
    + split; [lia|]. split; [done|].
      intros j Hj. destruct (decide (j = k)) as [->|].
      * by rewrite Hget.
      * apply IH3. lia.
Qed.

(** [filepath_Split] cuts the path just after its last separator: the two
    parts make up the path, the second holds no separator, and the first is
    empty or ends with a separator. *)
Lemma filepath_Split_spec path :
  (filepath_Split path).1 +:+ (filepath_Split path).2 = path ∧
  (∀ j, String.get j (filepath_Split path).2 ≠ Some os.PathSeparator) ∧
  ((filepath_Split path).1 = "" ∨
   String.get (String.length (filepath_Split path).1 - 1) (filepath_Split path).1
     = Some os.PathSeparator).
Proof.
  unfold filepath_Split. cbn [fst snd].
  destruct (splitIndex_spec path (String.length path)) as (Hle & Hlast & Hnone).
  set (i := splitIndex path (String.length path)) in *.
  assert (Hlen : String.length (String.substring 0 i path) = i)
    by (apply length_substring; lia).
  split; [|split].
  - apply String.get_correct. intros n.
    destruct (decide (n < i)%nat) as [Hn|Hn].
    + rewrite <- String.append_correct1 by lia.
      rewrite String.substring_correct1 by lia. by rewrite Nat.add_0_r.
    + replace n with ((n - i) + String.length (String.substring 0 i path))%nat at 1 by lia.
      rewrite <- String.append_correct2.
      destruct (decide (n - i < String.length path - i)%nat) as [Hm|Hm].
      * rewrite String.substring_correct1 by lia. f_equal. lia.
      * rewrite String.substring_correct2 by lia. symmetry. apply get_ge. lia.
  - intros j. destruct (decide (j < String.length path - i)%nat) as [Hj|Hj].
    + rewrite String.substring_correct1 by lia. apply Hnone. lia.
    + by rewrite String.substring_correct2 by lia.
  - destruct (decide (i = 0)) as [Hi|Hi].
    + left. rewrite Hi. by destruct path.
    + right. destruct Hlast as [H0|Hs]; [done|].
      rewrite Hlen, String.substring_correct1 by lia. by rewrite Nat.add_0_r.
Qed.

(** ** The watcher, the callback and [Provide] *)

Section Watch.
Variable rho : RangeOrder.
Variable CreateConfiguration : string → option Configuration * option error.
Variable DecodeConfiguration : string → option Configuration * option error.
Variable path_Join : string → string → string.
Variable filepath_Join : string → string → string.
Variable filepath_Dir : string → string.

Local Abbreviation build := (BuildConfiguration rho CreateConfiguration
                          DecodeConfiguration path_Join filepath_Join).
Local Abbreviation callback := (watcherCallback rho CreateConfiguration
                          DecodeConfiguration path_Join filepath_Join).
Local Abbreviation provide := (Provide rho CreateConfiguration
                          DecodeConfiguration path_Join filepath_Join filepath_Dir).
Local Abbreviation loop := (watchLoop rho CreateConfiguration
                          DecodeConfiguration path_Join filepath_Join).
Local Abbreviation pool := (runPool rho CreateConfiguration
                          DecodeConfiguration path_Join filepath_Join).

Lemma build_frame w fuel p s r s' : build w fuel p s = Done r s' → frame s s'.
Proof.
  unfold BuildConfiguration.
  destruct (0 <? String.length (Directory p))%nat.
  { intros E. pose proof (load_nil_good rho CreateConfiguration DecodeConfiguration
                            path_Join filepath_Join w fuel
                            (log.WithField log.ProviderName providerName [])
                            (Directory p) s) as K.
    rewrite E in K. destruct r. by destruct K. }
  repeat destruct (0 <? String.length _)%nat; intros [= _ <-]; apply frame_refl.
Qed.

Lemma build_no_panic w fuel p s s' : build w fuel p s ≠ Panic s'.
Proof.
  unfold BuildConfiguration.
  destruct (0 <? String.length (Directory p))%nat.
  { intros E. pose proof (load_nil_good rho CreateConfiguration DecodeConfiguration
                            path_Join filepath_Join w fuel
                            (log.WithField log.ProviderName providerName [])
                            (Directory p) s) as K.
    by rewrite E in K. }
  repeat destruct (0 <? String.length _)%nat; done.
Qed.

(** The dispatch of one event. *)
Lemma watchSelect_event (cb : fsnotify.Event → Exec unit) p evt s :
  watchSelect cb p (Events evt) s =
    match targetOf p with
    | Some t => if relevantTo t evt then (cb evt ≫= λ _, mret true) s else Done true s
    | None =>
        if String.eqb (fileName (fsnotify.Name evt)) (fileName "")
        then (cb evt ≫= λ _, mret true) s else Done true s
    end.
Proof.
  unfold watchSelect. rewrite targetOf_cases, eqb_empty. unfold fileName.
  destruct (0 <? String.length (Directory p))%nat; [done|]. cbn [negb].
  destruct (0 <? String.length (Filename p))%nat;
    [|destruct (0 <? String.length (TraefikFile p))%nat eqn:E];
    cbn [relevantTo]; unfold fileName.
  - generalize (filepath_Split (fsnotify.Name evt)), (filepath_Split (Filename p)).
    intros [d1 f1] [d2 f2]. cbn [snd]. by destruct (String.eqb f1 f2).
  - generalize (filepath_Split (fsnotify.Name evt)), (filepath_Split (TraefikFile p)).
    intros [d1 f1] [d2 f2]. cbn [snd]. by destruct (String.eqb f1 f2).
  - destruct (TraefikFile p); [|done].
    generalize (filepath_Split (fsnotify.Name evt)), (filepath_Split "").
    intros [d1 f1] [d2 f2]. cbn [snd]. by destruct (String.eqb f1 f2).
Qed.


Lemma callback_stat_fails w fuel p evt s err :
  os_Stat w (targetPath (targetOf p)) = Some err →
  callback w fuel p evt s
    = Done tt (addLog [unableToWatch (targetPath (targetOf p)) err] s).
Proof.
  intros Hstat. unfold watcherCallback. rewrite <- targetPath_cases, Hstat. reflexivity.
Qed.

Lemma callback_rebuild w fuel p evt s r s' :
  os_Stat w (targetPath (targetOf p)) = None →
  build w fuel p s = Done r s' →
  callback w fuel p evt s =
    Done tt match r.2 with
            | Some err => addLog [callbackError err] s'
            | None => addSent (delivery r.1) s'
            end.
Proof.
  intros Hstat Hb. unfold watcherCallback. rewrite <- targetPath_cases, Hstat.
  rewrite (bind_Done _ _ _ _ _ Hb). by destruct (r.2).
Qed.

(** C6. When the existence check passes and the rebuild returns: if it
    returns an error, the callback logs it and the channel is as it was; if
    it returns no error, the callback sends exactly one message, carrying the
    new snapshot. In both cases the loop goes on with the rest of its
    signals. *)
Theorem rebuild_sends_or_logs w fuel p evt rest s r s' :
  os_Stat w (targetPath (targetOf p)) = None →
  build w fuel p s = Done r s' →
  ∃ s'',
    callback w fuel p evt s = Done tt s'' ∧
    match r.2 with
    | Some err => sent s'' = sent s ∧ logged s'' = logged s' ++ [callbackError err]
    | None => sent s'' = sent s ++ [delivery r.1] ∧ logged s'' = logged s'
    end ∧
    ∃ sx, (sx = s ∨ sx = s'') ∧
      watchSelect (callback w fuel p) p (Events evt) s = Done true sx ∧
      loop fuel p ((w, Events evt) :: rest) s = loop fuel p rest sx.
Proof.
  intros Hstat Hb. pose proof (build_frame _ _ _ _ _ _ Hb) as [Hsent _].
  eexists. split; [by apply callback_rebuild|]. split.
  { destruct (r.2); simpl; by rewrite Hsent. }
  set (s'' := match r.2 with
              | Some err => addLog [callbackError err] s'
              | None => addSent (delivery r.1) s'
              end).
  assert (∃ sx, (sx = s ∨ sx = s'') ∧
            watchSelect (callback w fuel p) p (Events evt) s = Done true sx)
    as (sx & Hsx & E).
  { rewrite watchSelect_event.
    assert ((callback w fuel p evt ≫= λ _, mret true) s = Done true s'') as Hrun.
    { by rewrite (bind_Done _ _ _ _ _ (callback_rebuild _ _ _ evt _ _ _ Hstat Hb)). }
    destruct (targetOf p) as [t|];
      [destruct (relevantTo t evt)|destruct (String.eqb _ _)];
      rewrite ?Hrun; eauto. }
  exists sx. split; [done|]. split; [done|].
  cbn [watchLoop]. by rewrite (bind_Done _ _ _ _ _ E).
Qed.

(** C10. When the existence check on the target fails, a relevant event
    only adds one error entry to the log: nothing is rebuilt, nothing is
    sent, and the loop goes on. *)
Theorem stat_failure_skips_rebuild w fuel p t evt rest s err :
  targetOf p = Some t → relevantTo t evt = true →
  os_Stat w (targetPath (Some t)) = Some err →
  callback w fuel p evt s = Done tt (addLog [unableToWatch (targetPath (Some t)) err] s) ∧
  watchSelect (callback w fuel p) p (Events evt) s
    = Done true (addLog [unableToWatch (targetPath (Some t)) err] s) ∧
  loop fuel p ((w, Events evt) :: rest) s
    = loop fuel p rest (addLog [unableToWatch (targetPath (Some t)) err] s) ∧
  sent (addLog [unableToWatch (targetPath (Some t)) err] s) = sent s.
Proof.
  intros Ht Hrel Hstat. rewrite <- Ht in Hstat.
  pose proof (callback_stat_fails w fuel p evt s err Hstat) as Hcb. rewrite Ht in Hcb.
  assert (watchSelect (callback w fuel p) p (Events evt) s
          = Done true (addLog [unableToWatch (targetPath (Some t)) err] s)) as Hsel.
  { rewrite watchSelect_event, Ht, Hrel. by rewrite (bind_Done _ _ _ _ _ Hcb). }
  split; [done|]. split; [done|]. split; [|done].
  cbn [watchLoop]. by rewrite (bind_Done _ _ _ _ _ Hsel).
Qed.

Lemma targetOf_None p :
  targetOf p = None → Directory p = "" ∧ Filename p = "" ∧ TraefikFile p = "".
Proof.
  unfold targetOf. repeat case_decide; try done.
Qed.

(** C4. Without directory, filename and fallback file, [BuildConfiguration]
    returns the error of the missing target and no snapshot, [Provide]
    returns that error, and the runtime is unchanged: no message is sent, no
    task is started, so that no later signal can send one. *)
Theorem no_target_no_delivery w fuel p s :
  targetOf p = None →
  build w fuel p s = Done (None, Some NoFilenameDefined) s ∧
  provide w fuel p s = Done (Some NoFilenameDefined) s ∧
  (tasks s = [] → ∀ trace, pool fuel trace s = Done tt s).
Proof.
  intros (Hd & Hf & Ht)%targetOf_None.
  assert (build w fuel p s = Done (None, Some NoFilenameDefined) s) as Hb.
  { unfold BuildConfiguration. by rewrite Hd, Hf, Ht. }
  split; [done|]. split.
  - unfold Provide. by rewrite (bind_Done _ _ _ _ _ Hb).
  - intros Hts trace. unfold runPool. by rewrite Hts.
Qed.

Lemma loadFileConfig_decoded w f parseTemplate content :
  readFile w f = (content, None) →
  loadFileConfig CreateConfiguration DecodeConfiguration w f parseTemplate
    = decodedResult (if parseTemplate then CreateConfiguration content
                     else DecodeConfiguration content).
Proof.
  intros Hr. unfold loadFileConfig, decodedResult, normalized. rewrite Hr.
  by destruct (if parseTemplate then _ else _) as [c [e|]].
Qed.

(** C7. [BuildConfiguration] follows the precedence of the specification:
    the directory if there is one, else the file, built with template
    rendering, else the fallback file, built without; with template
    rendering the snapshot comes from [CreateConfiguration], without it from
    [DecodeConfiguration]. When [Provide] starts the watcher, the task
    watches the directory itself, or the parent directory of the file the
    same precedence selects. *)
Theorem target_precedence w fuel p s :
  build w fuel p s =
    match targetOf p with
    | Some (TargetDirectory d) =>
        loadFileConfigFromDirectory rho CreateConfiguration DecodeConfiguration path_Join
          filepath_Join w fuel [(log.ProviderName, "file")] d None s
    | Some (TargetFile f) =>
        Done (loadFileConfig CreateConfiguration DecodeConfiguration w f true) s
    | Some (TargetFallbackFile f) =>
        Done (loadFileConfig CreateConfiguration DecodeConfiguration w f false) s
    | None => Done (None, Some NoFilenameDefined) s
    end ∧
  (∀ f content, readFile w f = (content, None) →
     loadFileConfig CreateConfiguration DecodeConfiguration w f true
       = decodedResult (CreateConfiguration content) ∧
     loadFileConfig CreateConfiguration DecodeConfiguration w f false
       = decodedResult (DecodeConfiguration content)) ∧
  (∀ t s', targetOf p = Some t → Watch p = true →
     provide w fuel p s = Done None s' →
     tasks s' = tasks s ++ [ {| watched := subscription filepath_Dir t; owner := p |} ]).
Proof.
  split; [|split].
  - unfold BuildConfiguration. rewrite targetOf_cases.
    by repeat destruct (0 <? String.length _)%nat.
  - intros f content Hr. split; by rewrite (loadFileConfig_decoded _ _ _ _ Hr).
  - intros t s' Ht Hw. unfold Provide. rewrite bind_eq.
    destruct (build w fuel p s) as [[c e] s1| |] eqn:Hb; [|done..].
    apply build_frame in Hb as [_ Htasks]. destruct e as [err|]; [done|].
    cbn [snd fst]. rewrite Hw. unfold addWatcher.
    assert ((if (0 <? String.length (Directory p))%nat then Directory p
             else if (0 <? String.length (Filename p))%nat then filepath_Dir (Filename p)
             else filepath_Dir (TraefikFile p)) = subscription filepath_Dir t) as ->.
    { rewrite targetOf_cases in Ht.
      repeat destruct (0 <? String.length _)%nat; by inversion Ht. }
    destruct (fsnotify_NewWatcher w); [done|].
    destruct (fsnotify_Add w _); [done|].
    intros [= <-]. simpl. by rewrite Htasks.
Qed.
End Watch.


Lemma rebuild_sends_or_logs_witness :
  ∃ s'',
    watcherCallback idOrder exampleDecode exampleDecode slashJoin slashJoin exampleWorld 2
      directoryProvider (changed "/cfg/a.toml") emptyRuntime = Done tt s'' ∧
    sent s'' = sent emptyRuntime ++ [delivery (Some exampleSnapshot)] ∧
    logged s'' = logged exampleRuntime.
Proof.
  destruct (rebuild_sends_or_logs idOrder exampleDecode exampleDecode slashJoin slashJoin
              exampleWorld 2 directoryProvider (changed "/cfg/a.toml") [] emptyRuntime
              (Some exampleSnapshot, None) exampleRuntime) as (s'' & H1 & H2 & _).
  - vm_compute; reflexivity.
  - vm_compute; reflexivity.
  - exists s''. split; [exact H1|exact H2].
Defined.

Lemma stat_failure_skips_rebuild_witness :
  watchSelect
    (watcherCallback idOrder exampleDecode exampleDecode slashJoin slashJoin removedWorld 2
       fileProvider)
    fileProvider (Events (changed "/cfg/b.toml")) emptyRuntime
  = Done true (addLog [unableToWatch "/cfg/b.toml" (External "no such file or directory")]
                      emptyRuntime).
Proof.
  apply (stat_failure_skips_rebuild idOrder exampleDecode exampleDecode slashJoin slashJoin
           removedWorld 2 fileProvider (TargetFile "/cfg/b.toml") (changed "/cfg/b.toml")
           [] emptyRuntime (External "no such file or directory"));
    vm_compute; reflexivity.
Defined.

Lemma no_target_no_delivery_witness :
  BuildConfiguration idOrder exampleDecode exampleDecode slashJoin slashJoin exampleWorld 2
    noTargetProvider emptyRuntime = Done (None, Some NoFilenameDefined) emptyRuntime ∧
  Provide idOrder exampleDecode exampleDecode slashJoin slashJoin slashDir exampleWorld 2
    noTargetProvider emptyRuntime = Done (Some NoFilenameDefined) emptyRuntime ∧
  (tasks emptyRuntime = [] →
   ∀ trace, runPool idOrder exampleDecode exampleDecode slashJoin slashJoin 2 trace
              emptyRuntime = Done tt emptyRuntime).
Proof.
  apply (no_target_no_delivery idOrder exampleDecode exampleDecode slashJoin slashJoin
           slashDir exampleWorld 2 noTargetProvider emptyRuntime).
  vm_compute; reflexivity.
Defined.

Lemma target_precedence_witness :
  tasks {| logged := []; ranges := 0; sent := [delivery (Some fileSnapshot)];
           tasks := [ {| watched := "/cfg"; owner := fileProvider |} ] |}
  = tasks emptyRuntime
    ++ [ {| watched := subscription slashDir (TargetFile "/cfg/b.toml");
            owner := fileProvider |} ].
Proof.
  apply (proj2 (proj2 (target_precedence idOrder exampleDecode exampleDecode slashJoin
                         slashJoin slashDir exampleWorld 1 fileProvider emptyRuntime))
           (TargetFile "/cfg/b.toml")); vm_compute; reflexivity.
Defined.

(** The examples of the specification for the relevance filter, and one
    where only the directories differ. *)
Lemma relevance_examples :
  relevantTo (TargetFile "/a/b/conf.ext") (changed "/a/b/conf.ext") = true ∧
  relevantTo (TargetFile "/a/b/conf.ext") (changed "/a/b/other.ext") = false ∧
  relevantTo (TargetFile "/a/b/conf.ext") (changed "/x/y/conf.ext") = true ∧
  relevantTo (TargetDirectory "/a/b") (changed "/a/b/anything") = true.
Proof. repeat split; vm_compute; reflexivity. Qed.

(** ** Termination: the fuel is enough *)

Lemma mergeEntries_fuel logger field msg get set : ∀ entries co s,
  mergeEntries logger field msg get set entries co s ≠ OutOfFuel.
Proof.
  induction entries as [|[name conf] rest IH]; intros co s; simpl; [done|].
  destruct co as [cfg|]; [|done]. destruct (get cfg) as [m|]; [|done].
  destruct (m !! name); [|apply IH].
  unfold mbind, Exec_bind, Warn, emit. apply IH.
Qed.

Section Fuel.
Variable rho : RangeOrder.
Variable CreateConfiguration : string → option Configuration * option error.
Variable DecodeConfiguration : string → option Configuration * option error.
Variable path_Join : string → string → string.
Variable filepath_Join : string → string → string.
Variable w : World.

Local Abbreviation load := (loadFileConfigFromDirectory rho CreateConfiguration
                          DecodeConfiguration path_Join filepath_Join w).
Local Abbreviation walk := (walkItems rho CreateConfiguration
                          DecodeConfiguration path_Join filepath_Join w).

Lemma mergeFile_fuel logger c co seen s : mergeFile rho logger c co seen s ≠ OutOfFuel.
Proof.
  unfold mergeFile, mbind, Exec_bind, rangeMap.
  destruct (mergeEntries _ _ _ Routers _ _ _ _) as [c1 s1| |] eqn:E1;
    [|done|by apply mergeEntries_fuel in E1].
  destruct (mergeEntries _ _ _ Middlewares _ _ _ _) as [c2 s2| |] eqn:E2;
    [|done|by apply mergeEntries_fuel in E2].
  destruct (mergeEntries _ _ _ Services _ _ _ _) as [c3 s3| |] eqn:E3;
    [|done|by apply mergeEntries_fuel in E3].
  by rewrite collectTLS_spec.
Qed.

Lemma appendTLS_fuel confs : ∀ co s, appendTLS confs co s ≠ OutOfFuel.
Proof.
  induction confs as [|conf rest IH]; intros co s; simpl; [done|].
  destruct co; [apply IH|done].
Qed.

Lemma walkItems_fuel recurse logger directory : ∀ fileList co seen s,
  (∀ item co s, item ∈ fileList → os.IsDir item = true →
     recurse (filepath_Join directory (os.Name item)) co s ≠ OutOfFuel) →
  walk recurse logger directory fileList co seen s ≠ OutOfFuel.
Proof.
  induction fileList as [|item rest IH]; intros co seen s Hrec; [done|].
  assert (Hrest : ∀ item co s, item ∈ rest → os.IsDir item = true →
            recurse (filepath_Join directory (os.Name item)) co s ≠ OutOfFuel).
  { intros i c t Hi. apply Hrec. by right. }
  cbn [walkItems]. destruct (os.IsDir item) eqn:Hdir.
  - rewrite bind_eq. specialize (Hrec item co s (list_elem_of_here _ _) Hdir).
    destruct (recurse _ _ s) as [[c1 [e|]] s1| |]; try done. by apply IH.
  - destruct (negb _ && negb _); [by apply IH|].
    destruct (loadFileConfig _ _ _ _ _) as [[c|] [e|]]; try done.
    rewrite bind_eq. pose proof (mergeFile_fuel logger c co seen s) as Hm.
    destruct (mergeFile _ _ _ _ _ _) as [[c1 seen1] s1| |]; try done. by apply IH.
Qed.

(** Enough fuel: a call with more fuel than the nesting depth of the
    directory returns. *)
Lemma load_enough_fuel n directory :
  depthAtMost filepath_Join w n directory →
  ∀ ctx co s, load (S n) ctx directory co s ≠ OutOfFuel.
Proof.
  induction 1 as [n directory fileList e Hdir|n directory fileList Hdir Hsub IH];
    intros ctx co s; cbn [loadFileConfigFromDirectory]; rewrite Hdir; [done|].
  rewrite bind_eq.
  pose proof (walkItems_fuel (load (S n) ctx) ctx directory fileList
                (match co with None => Some emptyConfiguration | Some _ => co end) ∅ s
                (λ item co s Hin Hd, IH item Hin Hd ctx co s)) as Hw.
  destruct (walkItems _ _ _ _ _ _ _ _ _ _ _ _ s) as [[[c1 e]|[c1 seen1]] s1| |]; try done.
  unfold mbind, Exec_bind, rangeSet.
  match goal with |- context [appendTLS ?l ?c ?t] =>
    pose proof (appendTLS_fuel l c t); destruct (appendTLS l c t) end; done.
Qed.

(** With enough fuel the build of a directory returns: it neither panics nor
    runs out of fuel. *)
Lemma build_directory_returns n p s :
  Directory p ≠ "" → depthAtMost filepath_Join w n (Directory p) →
  ∃ c e s', BuildConfiguration rho CreateConfiguration DecodeConfiguration path_Join
              filepath_Join w (S n) p s = Done (c, e) s'.
Proof.
  intros Hd Hdepth. unfold BuildConfiguration.
  rewrite nonempty_length, bool_decide_eq_true_2 by done.
  pose proof (load_enough_fuel n _ Hdepth (log.WithField log.ProviderName providerName [])
                None s) as Hf.
  pose proof (load_nil_good rho CreateConfiguration DecodeConfiguration path_Join
                filepath_Join w (S n) (log.WithField log.ProviderName providerName [])
                (Directory p) s) as Hk.
  destruct (loadFileConfigFromDirectory _ _ _ _ _ _ _ _ _ _ s) as [[c e] s'| |];
    [by exists c, e, s'|done..].
Qed.
End Fuel.

(** ** Scenarios *)

(** With the three fields set the directory is built and watched. *)
Example directory_has_precedence :
  targetOf allTargetsProvider = Some (TargetDirectory "/cfg") ∧
  Provide idOrder exampleDecode exampleDecode slashJoin slashJoin slashDir exampleWorld 2
    allTargetsProvider emptyRuntime
  = Done None {| logged := logged exampleRuntime; ranges := 11;
                 sent := [delivery (Some exampleSnapshot)];
                 tasks := [ {| watched := "/cfg"; owner := allTargetsProvider |} ] |}.
Proof. split; vm_compute; reflexivity. Qed.

(** The fallback file is decoded without template rendering and its parent
    directory is watched. *)
Example fallback_file_is_last :
  targetOf fallbackProvider = Some (TargetFallbackFile "/cfg/a.toml") ∧
  Provide idOrder (λ _, (None, Some (External "template engine not used")))
    exampleDecode slashJoin slashJoin slashDir exampleWorld 2 fallbackProvider emptyRuntime
  = Done None {| logged := []; ranges := 0; sent := [delivery (Some incoming)];
                 tasks := [ {| watched := "/cfg"; owner := fallbackProvider |} ] |}.
Proof. split; vm_compute; reflexivity. Qed.

(** A rebuild that fails while the target still exists: one error entry, no
    message, and the next relevant event is served. *)
Example failed_rebuild_keeps_watching :
  watchLoop idOrder exampleDecode exampleDecode slashJoin slashJoin 2 directoryProvider
    [ (unreadableWorld, Events (changed "/cfg/a.toml"));
      (exampleWorld, Events (changed "/cfg/a.toml")) ] emptyRuntime
  = Done tt {| logged := callbackError
                           (UnableToReadDirectory "/cfg" (External "permission denied"))
                         :: logged exampleRuntime;
               ranges := 11; sent := [delivery (Some exampleSnapshot)]; tasks := [] |}.
Proof. vm_compute; reflexivity. Qed.

(** After the stop signal the loop serves no event. *)
Example stop_ends_the_loop :
  watchLoop idOrder exampleDecode exampleDecode slashJoin slashJoin 2 directoryProvider
    [ (exampleWorld, Stop); (exampleWorld, Events (changed "/cfg/a.toml")) ] emptyRuntime
  = Done tt emptyRuntime.
Proof. vm_compute; reflexivity. Qed.

(** ** What the aggregator computes *)

Lemma unionAll_app k m cs1 cs2 :
  unionAll k m (cs1 ++ cs2) = unionAll k (unionAll k m cs1) cs2.
Proof. apply foldl_app. Qed.

Lemma mapping_startFrom_nil k : mapping k (startFrom None) = ∅.
Proof. by destruct k. Qed.

Section Aggregate.
Variable rho : RangeOrder.
Variable CreateConfiguration : string → option Configuration * option error.
Variable DecodeConfiguration : string → option Configuration * option error.
Variable path_Join : string → string → string.
Variable filepath_Join : string → string → string.
Variable w : World.

Local Abbreviation load := (loadFileConfigFromDirectory rho CreateConfiguration
                          DecodeConfiguration path_Join filepath_Join w).
Local Abbreviation walk := (walkItems rho CreateConfiguration
                          DecodeConfiguration path_Join filepath_Join w).
Local Abbreviation files := (mergedFiles CreateConfiguration DecodeConfiguration
                          path_Join filepath_Join w).

(** What one entry of a listing contributes, given what its subdirectory
    contributes. *)
Local Abbreviation contribution filesRec directory :=
  (λ item : os.FileInfo,
     if os.IsDir item then filesRec (filepath_Join directory (os.Name item))
     else if recognized item then
       match loadFileConfig CreateConfiguration DecodeConfiguration w
               (path_Join directory (os.Name item)) true with
       | (Some c, None) => [c]
       | _ => []
       end
     else []).

Lemma walkItems_union recurse (filesRec : string → list Configuration) logger directory :
  (∀ d cfg s c' s', nonNilMaps cfg → recurse d (Some cfg) s = Done (c', None) s' →
     ∃ cfg', c' = Some cfg' ∧ nonNilMaps cfg' ∧
       ∀ k, mapping k cfg' = unionAll k (mapping k cfg) (filesRec d)) →
  ∀ fileList cfg seen s c' seen' s', nonNilMaps cfg →
    walk recurse logger directory fileList (Some cfg) seen s = Done (inr (c', seen')) s' →
    ∃ cfg', c' = Some cfg' ∧ nonNilMaps cfg' ∧
      ∀ k, mapping k cfg' =
           unionAll k (mapping k cfg) (flat_map (contribution filesRec directory) fileList).
Proof.
  intros Hrec. induction fileList as [|item rest IH]; intros cfg seen s c' seen' s' G.
  - simpl. intros [= <- _ _]. by exists cfg.
  - cbn [walkItems flat_map]. destruct (os.IsDir item).
    + rewrite bind_eq.
      destruct (recurse _ _ s) as [[c1 [e|]] s1| |] eqn:Er; try done.
      destruct (Hrec _ _ _ _ _ G Er) as (cfg1 & -> & G1 & H1). simpl.
      intros Ew. destruct (IH _ _ _ _ _ _ G1 Ew) as (cfg' & -> & G' & H').
      exists cfg'. split; [done|]. split; [done|].
      intros k. by rewrite unionAll_app, H', H1.
    + rewrite recognized_skip. destruct (recognized item); simpl; [|by apply IH].
      destruct (loadFileConfig _ _ _ _ _) as [c e] eqn:Eload.
      destruct e as [err|]; [done|].
      destruct c as [c|]; [|by apply loadFileConfig_Some in Eload as [? ?]].
      pose proof G as ([ra Hr] & [ma Hm] & [sa Hs]).
      destruct (mergeFile_spec rho logger c cfg seen s ra ma sa Hr Hm Hs)
        as (? & ? & ? & E & _).
      rewrite (bind_Done _ _ _ _ _ E). cbn [fst snd]. intros Ew.
      apply IH in Ew as (cfg' & -> & G' & H'); [|apply nonNilMaps_merge].
      exists cfg'. split; [done|]. split; [done|].
      intros k. rewrite H'. cbn [app unionAll foldl]. f_equal.
      rewrite mapping_merge. by rewrite <- (mapping_known k cfg ra ma sa).
Qed.

Lemma load_union fuel ctx : ∀ d cfg s c' s', nonNilMaps cfg →
  load fuel ctx d (Some cfg) s = Done (c', None) s' →
  ∃ cfg', c' = Some cfg' ∧ nonNilMaps cfg' ∧
    ∀ k, mapping k cfg' = unionAll k (mapping k cfg) (files fuel d).
Proof.
  induction fuel as [|fuel IH]; intros d cfg s c' s' G; [done|].
  cbn [loadFileConfigFromDirectory mergedFiles].
  destruct (ioutil_ReadDir w d) as [fileList [err|]]; [done|].
  rewrite bind_eq.
  destruct (walkItems _ _ _ _ _ _ _ _ _ _ _ _ s) as [[[c1 e]|[c1 seen1]] s1| |] eqn:Ew;
    try done.
  destruct (walkItems_union _ (files fuel) ctx d IH _ _ _ _ _ _ _ G Ew)
    as (cfg1 & -> & G1 & H1).
  unfold mbind, Exec_bind, rangeSet. rewrite appendTLS_spec. intros [= <- _].
  eexists. split; [done|]. split; [by apply nonNilMaps_setTLS|].
  intros k. by rewrite mapping_setTLS.
Qed.

(** X1. A successful call of the aggregator returns, for routers,
    middlewares and services alike, the left-biased union of the mapping of
    the accumulator it started from with the mappings of all the files it
    loaded, in depth-first listing order: whatever is defined first on that
    walk wins, through any number of subdirectories. *)
Theorem aggregator_merges_in_listing_order fuel ctx directory acc s cfg' s' k :
  (∀ a, acc = Some a → nonNilMaps a) →
  load fuel ctx directory acc s = Done (Some cfg', None) s' →
  mapping k cfg' = unionAll k (mapping k (startFrom acc)) (files fuel directory).
Proof.
  intros Hacc E.
  assert (load fuel ctx directory (Some (startFrom acc)) s = Done (Some cfg', None) s')
    as E'.
  { destruct acc as [a|]; [done|]. destruct fuel as [|fuel]; [done|].
    cbn [loadFileConfigFromDirectory] in *.
    by destruct (ioutil_ReadDir w directory) as [fileList [err|]]. }
  apply load_union in E' as (cfg1 & [= <-] & _ & H); [done|].
  destruct acc as [a|]; [by apply Hacc|apply nonNilMaps_empty].
Qed.
End Aggregate.

Lemma unionAll_cons k m c cs : unionAll k m (c :: cs) = unionAll k (m ∪ mapping k c) cs.
Proof. reflexivity. Qed.

Lemma unionAll_subseteq k cs : ∀ m, m ⊆ unionAll k m cs.
Proof.
  induction cs as [|c rest IH]; intros m; [done|]. rewrite unionAll_cons.
  etrans; [apply map_union_subseteq_l|apply IH].
Qed.

Lemma unionAll_disjoint k cs : ∀ m,
  disjointFrom k m cs →
  size (unionAll k m cs) = size m + sum_list_with (λ c, size (mapping k c)) cs ∧
  ∀ c, c ∈ cs → mapping k c ⊆ unionAll k m cs.
Proof.
  induction cs as [|c rest IH]; intros m Hd.
  - split; [simpl; lia|]. intros c Hc. by apply elem_of_nil in Hc.
  - destruct Hd as [Hmc Hd]. destruct (IH _ Hd) as [Hsize Hsub].
    rewrite unionAll_cons. cbn [sum_list_with]. split.
    + rewrite Hsize, map_size_disj_union by done. lia.
    + intros c' [->|Hc']%elem_of_cons; [|by apply Hsub].
      etrans; [by apply map_union_subseteq_r|apply (unionAll_subseteq k rest)].
Qed.

Section Disjoint.
Variable rho : RangeOrder.
Variable CreateConfiguration : string → option Configuration * option error.
Variable DecodeConfiguration : string → option Configuration * option error.
Variable path_Join : string → string → string.
Variable filepath_Join : string → string → string.
Variable w : World.

Local Abbreviation load := (loadFileConfigFromDirectory rho CreateConfiguration
                          DecodeConfiguration path_Join filepath_Join w).
Local Abbreviation files := (mergedFiles CreateConfiguration DecodeConfiguration
                          path_Join filepath_Join w).

End Disjoint.

Lemma aggregator_merges_in_listing_order_witness :
  mapping RoutersKind exampleSnapshot
  = unionAll RoutersKind (mapping RoutersKind (startFrom None))
      (mergedFiles exampleDecode exampleDecode slashJoin slashJoin exampleWorld 2 "/cfg").
Proof.
  apply (aggregator_merges_in_listing_order idOrder exampleDecode exampleDecode slashJoin
           slashJoin exampleWorld 2 fileLogger "/cfg" None emptyRuntime exampleSnapshot
           exampleRuntime RoutersKind).
  - intros a Ha. discriminate Ha.
  - vm_compute; reflexivity.
Defined.


(** ** The TLS collection of a whole tree *)

Lemma appendTLS_Done confs : ∀ co s co' s',
  appendTLS confs co s = Done co' s' →
  default [] (co' ≫= TLS) = default [] (co ≫= TLS) ++ confs.
Proof.
  induction confs as [|conf rest IH]; intros co s co' s'; simpl.
  - intros [= <- _]. by rewrite app_nil_r.
  - destruct co as [cfg|]; [|done]. intros E. apply IH in E. rewrite E. simpl.
    by rewrite <- app_assoc.
Qed.

Section Batches.
Variable rho : RangeOrder.
Variable CreateConfiguration : string → option Configuration * option error.
Variable DecodeConfiguration : string → option Configuration * option error.
Variable path_Join : string → string → string.
Variable filepath_Join : string → string → string.
Variable w : World.

Local Abbreviation load := (loadFileConfigFromDirectory rho CreateConfiguration
                          DecodeConfiguration path_Join filepath_Join w).
Local Abbreviation walk := (walkItems rho CreateConfiguration
                          DecodeConfiguration path_Join filepath_Join w).
Local Abbreviation batches := (tlsBatches CreateConfiguration DecodeConfiguration
                          path_Join filepath_Join w).

Lemma walkItems_batches recurse (batchRec : string → list ptr) logger directory :
  (∀ d co s co' s', recurse d co s = Done (co', None) s' →
     default [] (co' ≫= TLS) ≡ₚ default [] (co ≫= TLS) ++ batchRec d) →
  ∀ fileList co seen s co' seen' s',
    walk recurse logger directory fileList co seen s = Done (inr (co', seen')) s' →
    default [] (co' ≫= TLS)
    ≡ₚ default [] (co ≫= TLS)
       ++ flat_map (λ item, if os.IsDir item
                            then batchRec (filepath_Join directory (os.Name item))
                            else []) fileList.
Proof.
  intros Hrec. induction fileList as [|item rest IH]; intros co seen s co' seen' s'.
  - simpl. intros [= <- _ _]. by rewrite app_nil_r.
  - cbn [walkItems flat_map]. destruct (os.IsDir item).
    + rewrite bind_eq. destruct (recurse _ _ s) as [[c1 [e|]] s1| |] eqn:Er; try done.
      simpl. intros Ew. apply IH in Ew. apply Hrec in Er.
      by rewrite Ew, Er, <- app_assoc.
    + destruct (negb _ && negb _); [by apply IH|].
      destruct (loadFileConfig _ _ _ _ _) as [[c|] [e|]]; try done.
      rewrite bind_eq.
      destruct (mergeFile _ _ _ _ _ _) as [[c1 seen1] s1| |] eqn:E1; try done.
      apply (mergeFile_seen rho) in E1 as [_ Ht]. simpl. intros Ew. apply IH in Ew.
      rewrite Ew. simpl.
      assert (default [] (c1 ≫= TLS) = default [] (co ≫= TLS)) as ->; [|done].
      destruct c1, co; simpl in *; congruence.
Qed.

Lemma load_batches fuel ctx : ∀ d co s co' s',
  load fuel ctx d co s = Done (co', None) s' →
  default [] (co' ≫= TLS) ≡ₚ default [] (co ≫= TLS) ++ batches fuel d.
Proof.
  induction fuel as [|fuel IH]; intros d co s co' s'; [done|].
  cbn [loadFileConfigFromDirectory tlsBatches].
  destruct (ioutil_ReadDir w d) as [fileList [err|]]; [done|].
  rewrite bind_eq.
  destruct (walkItems _ _ _ _ _ _ _ _ _ _ _ _ s) as [[[c1 e]|[c1 seen1]] s1| |] eqn:Ew;
    try done.
  pose proof (walkItems_seen _ _ _ _ _ _ _ _ _ _ _ _ _ _ _ _ Ew) as Hseen.
  rewrite (left_id_L ∅ (∪)) in Hseen. subst seen1.
  apply (walkItems_batches _ (batches fuel) ctx d IH) in Ew.
  rewrite bind_eq. unfold rangeSet. rewrite bind_eq.
  destruct (appendTLS _ _ _) as [c2 s2| |] eqn:Ea; try done.
  intros [= ? _]; subst. apply appendTLS_Done in Ea. rewrite Ea, Ew, order_Permutation.
  rewrite <- app_assoc. f_equiv. by destruct co.
Qed.

(** X3. The TLS collection a successful call returns holds, up to order,
    the entries the accumulator came with and one batch per directory the
    walk listed: the distinct entries of the files that directory holds
    directly. An entry is thus present once for every directory that has it
    in one of its files. *)
Theorem tls_one_batch_per_directory fuel ctx directory acc s cfg' s' :
  loadFileConfigFromDirectory rho CreateConfiguration DecodeConfiguration path_Join
    filepath_Join w fuel ctx directory acc s = Done (Some cfg', None) s' →
  default [] (TLS cfg')
    ≡ₚ default [] (acc ≫= TLS)
       ++ tlsBatches CreateConfiguration DecodeConfiguration path_Join filepath_Join w
            fuel directory.
Proof. intros E. by apply load_batches in E. Qed.
End Batches.

Lemma tls_one_batch_per_directory_witness :
  default [] (TLS exampleSnapshot)
  ≡ₚ default [] (None ≫= TLS)
     ++ tlsBatches exampleDecode exampleDecode slashJoin slashJoin exampleWorld 2 "/cfg".
Proof.
  apply (tls_one_batch_per_directory idOrder exampleDecode exampleDecode slashJoin
           slashJoin exampleWorld 2 fileLogger "/cfg" None emptyRuntime exampleSnapshot
           exampleRuntime).
  vm_compute; reflexivity.
Defined.

(** ** The accumulator only grows *)

Lemma extends_refl c : nonNilMaps c → extends c c.
Proof. intros G. split; [done|]. split; [done|]. done. Qed.

Lemma extends_trans c1 c2 c3 : extends c1 c2 → extends c2 c3 → extends c1 c3.
Proof.
  intros (_ & M12 & T12) (G3 & M23 & T23). split; [done|]. split.
  - intros k. etrans; [apply M12|apply M23].
  - etrans; [apply T12|apply T23].
Qed.

Lemma extends_merge cfg c ra ma sa :
  Routers cfg = Some ra → Middlewares cfg = Some ma → Services cfg = Some sa →
  extends cfg {| Routers := Some (ra ∪ default ∅ (Routers c));
                 Middlewares := Some (ma ∪ default ∅ (Middlewares c));
                 Services := Some (sa ∪ default ∅ (Services c));
                 TLS := TLS cfg |}.
Proof.
  intros Hr Hm Hs. split; [apply nonNilMaps_merge|]. split; [|done].
  intros k. rewrite mapping_merge, <- (mapping_known k cfg ra ma sa) by done.
  apply map_union_subseteq_l.
Qed.

Lemma extends_append cfg confs :
  nonNilMaps cfg → extends cfg (setTLS (appendedTLS (TLS cfg) confs) cfg).
Proof.
  intros G. split; [by apply nonNilMaps_setTLS|]. split.
  - intros k. by rewrite mapping_setTLS.
  - cbn [setTLS TLS]. destruct confs; simpl; [done|]. by apply prefix_app_r.
Qed.

Section Grows.
Variable rho : RangeOrder.
Variable CreateConfiguration : string → option Configuration * option error.
Variable DecodeConfiguration : string → option Configuration * option error.
Variable path_Join : string → string → string.
Variable filepath_Join : string → string → string.
Variable w : World.

Local Abbreviation load := (loadFileConfigFromDirectory rho CreateConfiguration
                          DecodeConfiguration path_Join filepath_Join w).
Local Abbreviation walk := (walkItems rho CreateConfiguration
                          DecodeConfiguration path_Join filepath_Join w).

Lemma walkItems_extends recurse logger directory :
  (∀ d cfg s c' e s', nonNilMaps cfg → recurse d (Some cfg) s = Done (c', e) s' →
     ∃ cfg', c' = Some cfg' ∧ extends cfg cfg') →
  ∀ fileList cfg seen s r s', nonNilMaps cfg →
    walk recurse logger directory fileList (Some cfg) seen s = Done r s' →
    ∃ cfg', extends cfg cfg' ∧
      match r with inl (c', _) => c' = Some cfg' | inr (c', _) => c' = Some cfg' end.
Proof.
  intros Hrec. induction fileList as [|item rest IH]; intros cfg seen s r s' G.
  - simpl. intros [= <- _]. exists cfg. split; [by apply extends_refl|done].
  - cbn [walkItems]. destruct (os.IsDir item).
    + rewrite bind_eq. destruct (recurse _ _ s) as [[c1 e] s1| |] eqn:Er; try done.
      destruct (Hrec _ _ _ _ _ _ G Er) as (cfg1 & -> & X1). simpl.
      destruct e as [err|].
      * intros [= <- _]. by exists cfg1.
      * intros Ew. apply IH in Ew as (cfg' & X' & Hr); [|by destruct X1].
        exists cfg'. split; [by eapply extends_trans|done].
    + destruct (negb _ && negb _); [by apply IH|].
      destruct (loadFileConfig _ _ _ _ _) as [c e] eqn:Eload.
      destruct e as [err|].
      { intros [= <- _]. exists cfg. split; [by apply extends_refl|done]. }
      destruct c as [c|]; [|by apply loadFileConfig_Some in Eload as [? ?]].
      pose proof G as ([ra Hr] & [ma Hm] & [sa Hs]).
      destruct (mergeFile_spec rho logger c cfg seen s ra ma sa Hr Hm Hs)
        as (? & ? & ? & E & _).
      rewrite (bind_Done _ _ _ _ _ E). cbn [fst snd]. intros Ew.
      apply IH in Ew as (cfg' & X' & Hr'); [|apply nonNilMaps_merge].
      exists cfg'. split; [|done].
      eapply extends_trans; [by apply (extends_merge cfg c ra ma sa)|done].
Qed.

Lemma load_extends fuel ctx : ∀ d cfg s c' e s', nonNilMaps cfg →
  load fuel ctx d (Some cfg) s = Done (c', e) s' →
  ∃ cfg', c' = Some cfg' ∧ extends cfg cfg'.
Proof.
  induction fuel as [|fuel IH]; intros d cfg s c' e s' G; [done|].
  cbn [loadFileConfigFromDirectory].
  destruct (ioutil_ReadDir w d) as [fileList [err|]].
  { intros [= <- _ _]. exists cfg. split; [done|by apply extends_refl]. }
  rewrite bind_eq.
  destruct (walkItems _ _ _ _ _ _ _ _ _ _ _ _ s) as [r s1| |] eqn:Ew; try done.
  destruct (walkItems_extends _ ctx d IH _ _ _ _ _ _ G Ew) as (cfg1 & X1 & Hr).
  destruct r as [[c1 e1]|[c1 seen1]]; subst c1.
  - intros [= <- _ _]. by exists cfg1.
  - rewrite bind_eq. unfold rangeSet. rewrite bind_eq, appendTLS_spec.
    intros [= <- _ _]. eexists. split; [done|].
    eapply extends_trans; [done|]. apply extends_append. by destruct X1.
Qed.

End Grows.


(** ** More fuel changes nothing *)

Section MoreFuel.
Variable rho : RangeOrder.
Variable CreateConfiguration : string → option Configuration * option error.
Variable DecodeConfiguration : string → option Configuration * option error.
Variable path_Join : string → string → string.
Variable filepath_Join : string → string → string.
Variable w : World.

Local Abbreviation load := (loadFileConfigFromDirectory rho CreateConfiguration
                          DecodeConfiguration path_Join filepath_Join w).
Local Abbreviation walk := (walkItems rho CreateConfiguration
                          DecodeConfiguration path_Join filepath_Join w).
Local Abbreviation build := (BuildConfiguration rho CreateConfiguration
                          DecodeConfiguration path_Join filepath_Join w).

Lemma walkItems_more_fuel rec1 rec2 logger directory :
  (∀ d co s r s', rec1 d co s = Done r s' → rec2 d co s = Done r s') →
  ∀ fileList co seen s r s',
    walk rec1 logger directory fileList co seen s = Done r s' →
    walk rec2 logger directory fileList co seen s = Done r s'.
Proof.
  intros Hrec. induction fileList as [|item rest IH]; intros co seen s r s'; [done|].
  cbn [walkItems]. destruct (os.IsDir item).
  - rewrite !bind_eq. destruct (rec1 _ _ s) as [[c1 e] s1| |] eqn:Er; try done.
    rewrite (Hrec _ _ _ _ _ Er). simpl. destruct e; [done|apply IH].
  - destruct (negb _ && negb _); [apply IH|].
    destruct (loadFileConfig _ _ _ _ _) as [[c|] [e|]]; try done.
    rewrite !bind_eq. destruct (mergeFile _ _ _ _ _ _) as [[c1 seen1] s1| |]; try done.
    apply IH.
Qed.

Lemma load_S fuel ctx d co s :
  load (S fuel) ctx d co s =
    match ioutil_ReadDir w d with
    | (fileList, Some e) => Done (co, Some (UnableToReadDirectory d e)) s
    | (fileList, None) =>
        (r ← walk (load fuel ctx) ctx d fileList
               (match co with None => Some emptyConfiguration | Some _ => co end) ∅;
         match r with
         | inl (configuration, err) => mret (configuration, Some err)
         | inr (configuration, configTLSMaps) =>
             confs ← rangeSet rho configTLSMaps;
             configuration ← appendTLS confs configuration;
             mret (configuration, None)
         end) s
    end.
Proof.
  cbn [loadFileConfigFromDirectory]. by destruct (ioutil_ReadDir w d) as [fileList [e|]].
Qed.

Lemma load_more_fuel fuel ctx : ∀ d co s r s',
  load fuel ctx d co s = Done r s' → load (S fuel) ctx d co s = Done r s'.
Proof.
  induction fuel as [|fuel IH]; intros d co s r s'; [done|].
  rewrite (load_S (S fuel)), (load_S fuel).
  destruct (ioutil_ReadDir w d) as [fileList [err|]]; [done|].
  rewrite !bind_eq.
  destruct (walkItems _ _ _ _ _ _ (load fuel ctx) _ _ _ _ _ s) as [r1 s1| |] eqn:Ew;
    try done.
  by rewrite (walkItems_more_fuel _ _ ctx d (IH) _ _ _ _ _ _ Ew).
Qed.

Lemma load_fuel_le fuel fuel' ctx d co s r s' :
  (fuel ≤ fuel')%nat →
  load fuel ctx d co s = Done r s' → load fuel' ctx d co s = Done r s'.
Proof. induction 1; [done|]. intros E. by apply load_more_fuel, IHle. Qed.

(** X5. Once the fuel exceeds the nesting depth of the configured
    directory (any fuel for a file, a fallback file or no target),
    [BuildConfiguration] returns: it never assigns into a [nil] map nor
    dereferences a [nil] snapshot, and what it returns is the same for every
    larger fuel. *)
Theorem build_returns_with_enough_fuel n fuel p s :
  (∀ d, targetOf p = Some (TargetDirectory d) → depthAtMost filepath_Join w n d) →
  (n < fuel)%nat →
  ∃ c e s', build (S n) p s = Done (c, e) s' ∧ build fuel p s = Done (c, e) s'.
Proof.
  intros Hdepth Hfuel. unfold BuildConfiguration.
  pose proof (targetOf_cases p) as Ht.
  destruct (0 <? String.length (Directory p))%nat.
  - pose proof (load_enough_fuel rho CreateConfiguration DecodeConfiguration path_Join
                  filepath_Join w n _ (Hdepth _ Ht)
                  (log.WithField log.ProviderName providerName []) None s) as Hf.
    pose proof (load_nil_good rho CreateConfiguration DecodeConfiguration path_Join
                  filepath_Join w (S n) (log.WithField log.ProviderName providerName [])
                  (Directory p) s) as Hk.
    destruct (loadFileConfigFromDirectory _ _ _ _ _ _ (S n) _ _ _ s)
      as [[c e] s'| |] eqn:E; [|done..].
    exists c, e, s'. split; [done|]. eapply load_fuel_le; [|exact E]. lia.
  - repeat destruct (0 <? String.length _)%nat;
      match goal with |- ∃ c e s', mret ?r ?s = _ ∧ _ =>
        exists (r.1), (r.2), s; by destruct r end.
Qed.
End MoreFuel.

Lemma build_returns_with_enough_fuel_witness :
  ∃ c e s',
    BuildConfiguration idOrder exampleDecode exampleDecode slashJoin slashJoin exampleWorld
      3 directoryProvider emptyRuntime = Done (c, e) s' ∧
    BuildConfiguration idOrder exampleDecode exampleDecode slashJoin slashJoin exampleWorld
      5 directoryProvider emptyRuntime = Done (c, e) s'.
Proof.
  apply (build_returns_with_enough_fuel idOrder exampleDecode exampleDecode slashJoin
           slashJoin exampleWorld 2 5 directoryProvider emptyRuntime); [|lia].
  intros d [= <-]. eapply depth_listing; [vm_compute; reflexivity|].
  intros item Hin Hdir.
  repeat (apply elem_of_cons in Hin as [->|Hin]; [try discriminate Hdir|]);
    [|by apply elem_of_nil in Hin].
  eapply depth_listing; [vm_compute; reflexivity|].
  intros item Hin' Hdir'.
  repeat (apply elem_of_cons in Hin' as [->|Hin']; [try discriminate Hdir'|]).
  by apply elem_of_nil in Hin'.
Defined.

(** ** What reaches the channel *)

Section Channel.
Variable rho : RangeOrder.
Variable CreateConfiguration : string → option Configuration * option error.
Variable DecodeConfiguration : string → option Configuration * option error.
Variable path_Join : string → string → string.
Variable filepath_Join : string → string → string.
Variable filepath_Dir : string → string.

Local Abbreviation build := (BuildConfiguration rho CreateConfiguration
                          DecodeConfiguration path_Join filepath_Join).
Local Abbreviation callback := (watcherCallback rho CreateConfiguration
                          DecodeConfiguration path_Join filepath_Join).
Local Abbreviation provide := (Provide rho CreateConfiguration
                          DecodeConfiguration path_Join filepath_Join filepath_Dir).
Local Abbreviation loop := (watchLoop rho CreateConfiguration
                          DecodeConfiguration path_Join filepath_Join).

Lemma watchedBy_cases p :
  watchedBy filepath_Dir p =
    if (0 <? String.length (Directory p))%nat then Directory p
    else if (0 <? String.length (Filename p))%nat then filepath_Dir (Filename p)
    else filepath_Dir (TraefikFile p).
Proof.
  unfold watchedBy. rewrite targetOf_cases.
  destruct (0 <? String.length (Directory p))%nat; [done|].
  destruct (0 <? String.length (Filename p))%nat; [done|].
  by destruct (TraefikFile p).
Qed.


Lemma callback_outcome w fuel p evt s :
  match callback w fuel p evt s with
  | Done _ s1 =>
      tasks s1 = tasks s ∧ (sent s1 = sent s ∨ ∃ c, sent s1 = sent s ++ [delivery c])
  | Panic _ => False
  | OutOfFuel => True
  end.
Proof.
  unfold watcherCallback. destruct (os_Stat w _); [by split; [|left]|].
  rewrite bind_eq.
  pose proof (build_no_panic rho CreateConfiguration DecodeConfiguration path_Join
                filepath_Join w fuel p s) as Hp.
  destruct (build w fuel p s) as [[c e] s1| |] eqn:Hb; [|by destruct (Hp s0)|done].
  apply build_frame in Hb as [Hsent Htasks].
  destruct e as [err|]; simpl; (split; [done|]); [left|right; exists c]; by rewrite Hsent.
Qed.

Lemma watchSelect_outcome w fuel p sig s :
  match watchSelect (callback w fuel p) p sig s with
  | Done _ s1 =>
      tasks s1 = tasks s ∧
      (sent s1 = sent s ∨
       ∃ c evt, sig = Events evt ∧ sent s1 = sent s ++ [delivery c])
  | Panic _ => False
  | OutOfFuel => True
  end.
Proof.
  destruct sig as [|evt|err]; [by split; [|left]| |by split; [|left]].
  rewrite watchSelect_event.
  pose proof (callback_outcome w fuel p evt s) as Hc.
  assert (match (callback w fuel p evt ≫= λ _, mret true) s with
          | Done _ s1 =>
              tasks s1 = tasks s ∧
              (sent s1 = sent s ∨
               ∃ c evt0, Events evt = Events evt0 ∧ sent s1 = sent s ++ [delivery c])
          | Panic _ => False
          | OutOfFuel => True
          end) as Hrun.
  { rewrite bind_eq. destruct (callback w fuel p evt s) as [[] s1| |]; try done.
    destruct Hc as [Ht [Hs|[c Hs]]]; (split; [done|]); [by left|right; by exists c, evt]. }
  destruct (targetOf p) as [t|];
    [destruct (relevantTo t evt)|destruct (String.eqb _ _)];
    first [exact Hrun|by split; [|left]].
Qed.

(** X7. Over any history of signals the watch loop never panics and never
    starts a task; all it adds to the channel are messages of the provider
    [file], at most one per filesystem event received. *)
Theorem watch_loop_sends_at_most_one_per_event fuel p : ∀ trace s,
  match loop fuel p trace s with
  | Done _ s' =>
      tasks s' = tasks s ∧
      ∃ cs, sent s' = sent s ++ (delivery <$> cs) ∧ (length cs ≤ eventCount trace)%nat
  | Panic _ => False
  | OutOfFuel => True
  end.
Proof.
  induction trace as [|[w sig] rest IH]; intros s.
  - simpl. split; [done|]. exists []. by rewrite app_nil_r.
  - cbn [watchLoop]. rewrite bind_eq.
    pose proof (watchSelect_outcome w fuel p sig s) as Hsel.
    destruct (watchSelect _ p sig s) as [continue s1| |]; [|done..].
    destruct Hsel as [Ht Hs].
    assert (∃ cs1, sent s1 = sent s ++ (delivery <$> cs1) ∧
                   (length cs1 ≤ eventCount [(w, sig)])%nat) as (cs1 & Hs1 & Hl1).
    { destruct Hs as [Hs|(c & evt & -> & Hs)].
      - exists []. rewrite app_nil_r. split; [done|simpl; lia].
      - exists [c]. split; [done|simpl; lia]. }
    assert (eventCount ((w, sig) :: rest) = eventCount [(w, sig)] + eventCount rest)%nat
      as -> by (by destruct sig).
    destruct continue.
    + specialize (IH s1). destruct (loop fuel p rest s1) as [[] s2| |]; [|done..].
      destruct IH as [Ht2 (cs2 & Hs2 & Hl2)]. split; [congruence|].
      exists (cs1 ++ cs2). rewrite Hs2, Hs1, fmap_app, length_app, <- app_assoc.
      split; [done|lia].
    + split; [done|]. exists cs1. split; [done|lia].
Qed.
End Channel.


(** ** A build is quiet *)

Lemma onlyWarned_refl s : onlyWarned s s.
Proof. exists []. by rewrite app_nil_r. Qed.

Lemma onlyWarned_trans s1 s2 s3 : onlyWarned s1 s2 → onlyWarned s2 s3 → onlyWarned s1 s3.
Proof.
  intros (l1 & E1 & F1) (l2 & E2 & F2). exists (l1 ++ l2).
  split; [by rewrite E2, E1, app_assoc|by apply Forall_app].
Qed.

Lemma onlyWarned_tick n s : onlyWarned s (tick n s).
Proof. exists []. by rewrite app_nil_r. Qed.

Lemma Forall_warn_names logger field msg (l : list log.Entry) names :
  l ≡ₚ nameWarning logger field msg <$> names →
  Forall (λ e, log.level e = log.WarnLevel) l.
Proof. intros ->. apply Forall_fmap, Forall_forall. by intros. Qed.

Section Quiet.
Variable rho : RangeOrder.
Variable CreateConfiguration : string → option Configuration * option error.
Variable DecodeConfiguration : string → option Configuration * option error.
Variable path_Join : string → string → string.
Variable filepath_Join : string → string → string.
Variable w : World.

Local Abbreviation load := (loadFileConfigFromDirectory rho CreateConfiguration
                          DecodeConfiguration path_Join filepath_Join w).
Local Abbreviation walk := (walkItems rho CreateConfiguration
                          DecodeConfiguration path_Join filepath_Join w).
Local Abbreviation build := (BuildConfiguration rho CreateConfiguration
                          DecodeConfiguration path_Join filepath_Join w).

Lemma mergeFile_warns logger c cfg seen s r s' :
  nonNilMaps cfg →
  mergeFile rho logger c (Some cfg) seen s = Done r s' →
  onlyWarned s s' ∧ ∃ cfg', r.1 = Some cfg' ∧ nonNilMaps cfg'.
Proof.
  intros ([ra Hr] & [ma Hm] & [sa Hs]).
  destruct (mergeFile_spec rho logger c cfg seen s ra ma sa Hr Hm Hs)
    as (wr & wm & ws & -> & Pr & Pm & Ps).
  intros [= <- <-]. split; [|eexists; split; [done|apply nonNilMaps_merge]].
  eexists. split; [reflexivity|]. rewrite !Forall_app.
  split; [by eapply Forall_warn_names|]. split; [by eapply Forall_warn_names|].
  split; [by eapply Forall_warn_names|]. apply Forall_fmap, Forall_forall. by intros.
Qed.

Lemma walkItems_warns recurse logger directory :
  (∀ d cfg s c' e s', nonNilMaps cfg → recurse d (Some cfg) s = Done (c', e) s' →
     onlyWarned s s' ∧ ∃ cfg', c' = Some cfg' ∧ nonNilMaps cfg') →
  ∀ fileList cfg seen s r s', nonNilMaps cfg →
    walk recurse logger directory fileList (Some cfg) seen s = Done r s' →
    onlyWarned s s' ∧
    ∃ cfg', nonNilMaps cfg' ∧
      match r with inl (c', _) => c' = Some cfg' | inr (c', _) => c' = Some cfg' end.
Proof.
  intros Hrec. induction fileList as [|item rest IH]; intros cfg seen s r s' G.
  - simpl. intros [= <- <-]. split; [apply onlyWarned_refl|by exists cfg].
  - cbn [walkItems]. destruct (os.IsDir item).
    + rewrite bind_eq. destruct (recurse _ _ s) as [[c1 e] s1| |] eqn:Er; try done.
      destruct (Hrec _ _ _ _ _ _ G Er) as (W1 & cfg1 & -> & G1). simpl.
      destruct e as [err|].
      * intros [= <- <-]. split; [done|by exists cfg1].
      * intros Ew. apply IH in Ew as (W2 & cfg' & G' & Hr); [|done].
        split; [by eapply onlyWarned_trans|by exists cfg'].
    + destruct (negb _ && negb _); [by apply IH|].
      destruct (loadFileConfig _ _ _ _ _) as [c e] eqn:Eload.
      destruct e as [err|].
      { intros [= <- <-]. split; [apply onlyWarned_refl|by exists cfg]. }
      destruct c as [c|]; [|by apply loadFileConfig_Some in Eload as [? ?]].
      rewrite bind_eq.
      destruct (mergeFile _ _ _ _ _ _) as [[c1 seen1] s1| |] eqn:E1; try done.
      apply mergeFile_warns in E1 as (W1 & cfg1 & Hc1 & G1); [|done].
      simpl in Hc1. subst c1. cbn [fst snd]. intros Ew.
      apply IH in Ew as (W2 & cfg' & G' & Hr); [|done].
      split; [by eapply onlyWarned_trans|by exists cfg'].
Qed.

Lemma load_warns fuel ctx : ∀ d cfg s c' e s', nonNilMaps cfg →
  load fuel ctx d (Some cfg) s = Done (c', e) s' →
  onlyWarned s s' ∧ ∃ cfg', c' = Some cfg' ∧ nonNilMaps cfg'.
Proof.
  induction fuel as [|fuel IH]; intros d cfg s c' e s' G; [done|].
  cbn [loadFileConfigFromDirectory].
  destruct (ioutil_ReadDir w d) as [fileList [err|]].
  { intros [= <- _ <-]. split; [apply onlyWarned_refl|by exists cfg]. }
  rewrite bind_eq.
  destruct (walkItems _ _ _ _ _ _ _ _ _ _ _ _ s) as [r s1| |] eqn:Ew; try done.
  destruct (walkItems_warns _ ctx d IH _ _ _ _ _ _ G Ew) as (W1 & cfg1 & G1 & Hr).
  destruct r as [[c1 e1]|[c1 seen1]]; subst c1.
  - intros [= <- _ <-]. split; [done|by exists cfg1].
  - rewrite bind_eq. unfold rangeSet. rewrite bind_eq, appendTLS_spec.
    intros [= <- _ <-]. split.
    + eapply onlyWarned_trans; [done|]. apply (onlyWarned_tick 1).
    + eexists. split; [done|]. by apply nonNilMaps_setTLS.
Qed.

(** X8. A build, of a file or of a whole tree, whether it ends with an
    error or not, sends nothing, starts no task and logs nothing but
    warnings: its errors are returned to the caller, never logged. *)
Theorem build_only_warns fuel p s r s' :
  build fuel p s = Done r s' →
  sent s' = sent s ∧ tasks s' = tasks s ∧ onlyWarned s s'.
Proof.
  intros Hb. destruct (build_frame _ _ _ _ _ _ _ _ _ _ _ Hb) as [Hs Ht].
  split; [done|]. split; [done|]. revert Hb. unfold BuildConfiguration.
  destruct (0 <? String.length (Directory p))%nat.
  - destruct fuel as [|fuel]; [done|]. cbn [loadFileConfigFromDirectory].
    destruct (ioutil_ReadDir w (Directory p)) as [fileList [err|]] eqn:Hd.
    { intros [= _ <-]. apply onlyWarned_refl. }
    intros E. destruct r as [c e].
    eapply (load_warns (S fuel) _ (Directory p) emptyConfiguration);
      [apply nonNilMaps_empty|].
    cbn [loadFileConfigFromDirectory]. rewrite Hd. exact E.
  - repeat destruct (0 <? String.length _)%nat; intros [= _ <-]; apply onlyWarned_refl.
Qed.
End Quiet.

Lemma build_only_warns_witness :
  sent exampleRuntime = sent emptyRuntime ∧ tasks exampleRuntime = tasks emptyRuntime ∧
  onlyWarned emptyRuntime exampleRuntime.
Proof.
  apply (build_only_warns idOrder exampleDecode exampleDecode slashJoin slashJoin
           exampleWorld 2 directoryProvider emptyRuntime (Some exampleSnapshot, None)).
  vm_compute; reflexivity.
Defined.

(** ** Relevance is a matter of file names *)

Lemma length_append (a b : string) :
  String.length (a +:+ b) = (String.length a + String.length b)%nat.
Proof. induction a as [|c a IH]; simpl; [done|]. by rewrite IH. Qed.

Lemma substring_append_l (d f : string) :
  String.substring 0 (String.length d) (d +:+ f) = d.
Proof.
  apply String.get_correct. intros n.
  destruct (decide (n < String.length d)%nat) as [Hn|Hn].
  - rewrite String.substring_correct1 by lia. rewrite Nat.add_0_r.
    symmetry. by apply String.append_correct1.
  - rewrite String.substring_correct2 by lia. symmetry. apply get_ge. lia.
Qed.

Lemma substring_append_r (d f : string) :
  String.substring (String.length d) (String.length f) (d +:+ f) = f.
Proof.
  apply String.get_correct. intros n.
  destruct (decide (n < String.length f)%nat) as [Hn|Hn].
  - rewrite String.substring_correct1 by lia. symmetry. apply String.append_correct2.
  - rewrite String.substring_correct2 by lia. symmetry. apply get_ge. lia.
Qed.

Lemma splitIndex_append (d f : string) :
  directoryPrefix d → noSeparator f →
  splitIndex (d +:+ f) (String.length (d +:+ f)) = String.length d.
Proof.
  intros Hd Hf.
  destruct (splitIndex_spec (d +:+ f) (String.length (d +:+ f))) as (Hle & Hlast & Hnone).
  set (i := splitIndex (d +:+ f) (String.length (d +:+ f))) in *.
  rewrite length_append in Hle, Hnone.
  destruct (Nat.lt_trichotomy i (String.length d)) as [Hlt|[Heq|Hgt]]; [|done|].
  - exfalso. destruct Hd as [->|Hd]; [simpl in Hlt; lia|].
    apply (Hnone (String.length d - 1)%nat); [lia|].
    rewrite <- String.append_correct1 by lia. exact Hd.
  - exfalso. destruct Hlast as [H0|Hs]; [lia|].
    apply (Hf (i - 1 - String.length d)%nat).
    rewrite (String.append_correct2 d f). rewrite <- Hs. f_equal. lia.
Qed.

Lemma filepath_Split_append (d f : string) :
  directoryPrefix d → noSeparator f → filepath_Split (d +:+ f) = (d, f).
Proof.
  intros Hd Hf. unfold filepath_Split. rewrite splitIndex_append by done.
  rewrite length_append, substring_append_l.
  replace (String.length d + String.length f - String.length d)%nat
    with (String.length f) by lia.
  by rewrite substring_append_r.
Qed.

(** X9. For a file or fallback-file target, whether an event is relevant
    depends on file names only: with paths cut into a directory prefix and a
    name without separator, the event is relevant exactly when its name is
    the name of the configured file, whatever the two directory prefixes
    are. *)
Theorem relevance_is_by_file_name (d1 d2 f1 f2 : string) :
  directoryPrefix d1 → directoryPrefix d2 → noSeparator f1 → noSeparator f2 →
  relevantTo (TargetFile (d1 +:+ f1)) {| fsnotify.Name := d2 +:+ f2 |}
    = bool_decide (f2 = f1) ∧
  relevantTo (TargetFallbackFile (d1 +:+ f1)) {| fsnotify.Name := d2 +:+ f2 |}
    = bool_decide (f2 = f1).
Proof.
  intros H1 H2 N1 N2. unfold relevantTo, fileName. cbn [fsnotify.Name].
  rewrite !filepath_Split_append by done. cbn [snd].
  split; (destruct (String.eqb_spec f2 f1);
          [by rewrite bool_decide_eq_true_2|by rewrite bool_decide_eq_false_2]).
Qed.

Lemma noSeparator_nil : noSeparator "".
Proof. intros j. by destruct j. Qed.

Lemma noSeparator_cons c f :
  os.IsPathSeparator c = false → noSeparator f → noSeparator (String c f).
Proof.
  intros Hc Hf [|j]; simpl; [|apply Hf].
  intros [= ->]. unfold os.IsPathSeparator in Hc. by rewrite Ascii.eqb_refl in Hc.
Qed.

Lemma relevance_is_by_file_name_witness :
  relevantTo (TargetFile ("/a/b/" +:+ "conf.ext"))
    {| fsnotify.Name := "/x/y/" +:+ "conf.ext" |}
    = bool_decide ("conf.ext" = "conf.ext") ∧
  relevantTo (TargetFallbackFile ("/a/b/" +:+ "conf.ext"))
    {| fsnotify.Name := "/x/y/" +:+ "conf.ext" |}
    = bool_decide ("conf.ext" = "conf.ext").
Proof.
  apply (relevance_is_by_file_name "/a/b/" "/x/y/" "conf.ext" "conf.ext").
  - right. vm_compute; reflexivity.
  - right. vm_compute; reflexivity.
  - repeat (apply noSeparator_cons; [vm_compute; reflexivity|]). apply noSeparator_nil.
  - repeat (apply noSeparator_cons; [vm_compute; reflexivity|]). apply noSeparator_nil.
Defined.

(** ** Entries that are not loaded *)

Lemma substring_cut (s : string) (i : nat) :
  (i ≤ String.length s)%nat →
  String.substring 0 i s +:+ String.substring i (String.length s - i) s = s.
Proof.
  intros Hi.
  assert (Hlen : String.length (String.substring 0 i s) = i)
    by (apply length_substring; lia).
  apply String.get_correct. intros n.
  destruct (decide (n < i)%nat) as [Hn|Hn].
  - rewrite <- String.append_correct1 by lia.
    rewrite String.substring_correct1 by lia. by rewrite Nat.add_0_r.
  - replace n with ((n - i) + String.length (String.substring 0 i s))%nat at 1 by lia.
    rewrite <- String.append_correct2.
    destruct (decide (n - i < String.length s - i)%nat) as [Hm|Hm].
    + rewrite String.substring_correct1 by lia. f_equal. lia.
    + rewrite String.substring_correct2 by lia. symmetry. apply get_ge. lia.
Qed.

Lemma HasSuffix_spec (s suffix : string) :
  HasSuffix s suffix = true ↔ ∃ pre, s = pre +:+ suffix.
Proof.
  unfold HasSuffix. rewrite andb_true_iff, Nat.leb_le, String.eqb_eq. split.
  - intros [Hle Hsub].
    exists (String.substring 0 (String.length s - String.length suffix) s).
    etrans; [symmetry; apply (substring_cut s (String.length s - String.length suffix));
             lia|].
    f_equal.
    replace (String.length s - (String.length s - String.length suffix))%nat
      with (String.length suffix) by lia.
    exact Hsub.
  - intros [pre ->]. rewrite length_append. split; [lia|].
    replace (String.length pre + String.length suffix - String.length suffix)%nat
      with (String.length pre) by lia.
    apply substring_append_r.
Qed.

Section Skips.
Variable rho : RangeOrder.
Variable CreateConfiguration : string → option Configuration * option error.
Variable DecodeConfiguration : string → option Configuration * option error.
Variable path_Join : string → string → string.
Variable filepath_Join : string → string → string.
Variable w : World.

Local Abbreviation load := (loadFileConfigFromDirectory rho CreateConfiguration
                          DecodeConfiguration path_Join filepath_Join w).
Local Abbreviation walk := (walkItems rho CreateConfiguration
                          DecodeConfiguration path_Join filepath_Join w).

(** X10. A directory entry that is not a directory and whose name ends
    neither in [.toml] nor in [.tmpl] is passed over: the walk continues with
    the rest of the listing from the same accumulator, the same set of TLS
    entries and the same state, without the file being read. *)
Theorem other_extensions_are_skipped recurse logger directory item rest co seen s :
  os.IsDir item = false →
  (∀ pre, os.Name item ≠ pre +:+ ".toml" ∧ os.Name item ≠ pre +:+ ".tmpl") →
  walkItems rho CreateConfiguration DecodeConfiguration path_Join filepath_Join w
    recurse logger directory (item :: rest) co seen s
  = walkItems rho CreateConfiguration DecodeConfiguration path_Join filepath_Join w
      recurse logger directory rest co seen s.
Proof.
  intros Hfile Hname. cbn [walkItems]. rewrite Hfile.
  assert (HasSuffix (os.Name item) ".toml" = false) as ->.
  { apply not_true_is_false. intros [pre Hp]%HasSuffix_spec. by destruct (Hname pre). }
  assert (HasSuffix (os.Name item) ".tmpl" = false) as ->.
  { apply not_true_is_false. intros [pre Hp]%HasSuffix_spec. by destruct (Hname pre). }
  done.
Qed.

Lemma walkItems_nothing recurse logger directory : ∀ fileList co seen s,
  Forall (λ item, os.IsDir item = false ∧ recognized item = false) fileList →
  walk recurse logger directory fileList co seen s = Done (inr (co, seen)) s.
Proof.
  induction fileList as [|item rest IH]; intros co seen s Hall; [done|].
  apply Forall_cons in Hall as [[Hfile Hrec] Hall]. cbn [walkItems].
  rewrite Hfile, recognized_skip, Hrec. simpl. by apply IH.
Qed.

(** X11. A readable directory whose listing holds no subdirectory and no
    [.toml] or [.tmpl] file gives back the accumulator it was given, or the
    empty snapshot with its three empty maps when it was given none, with no
    error and nothing logged; only the final iteration over the (empty) set of
    TLS entries takes place. *)
Theorem nothing_to_load_leaves_accumulator fuel ctx directory acc s fileList :
  ioutil_ReadDir w directory = (fileList, None) →
  Forall (λ item, os.IsDir item = false ∧ recognized item = false) fileList →
  load (S fuel) ctx directory acc s = Done (Some (startFrom acc), None) (tick 1 s).
Proof.
  intros Hdir Hall. cbn [loadFileConfigFromDirectory]. rewrite Hdir, bind_eq.
  rewrite walkItems_nothing by done. rewrite bind_eq. unfold rangeSet.
  rewrite elements_empty.
  rewrite (proj1 (Permutation_nil_r _) (order_Permutation rho (ranges s) positive [])).
  by destruct acc.
Qed.

(** X12. Loading one file gives either a snapshot and no error, or no
    snapshot and an error.  The error is the invalid-filename error wrapped
    with the (empty) file name when the name is empty, the read error wrapped
    with the file name when the file cannot be read, and the decoder's own
    error, unwrapped, when the content cannot be decoded; in that last case
    whatever the decoder returned beside its error is dropped. *)
Theorem loadFileConfig_snapshot_or_error filename parseTemplate c e :
  loadFileConfig CreateConfiguration DecodeConfiguration w filename parseTemplate = (c, e) →
  match e with
  | None => is_Some c
  | Some err =>
      c = None ∧
      ((filename = "" ∧
        err = ErrorReadingConfigurationFile filename (InvalidFilename filename)) ∨
       (∃ buf r, filename ≠ "" ∧ ioutil_ReadFile w filename = (buf, Some r) ∧
                 err = ErrorReadingConfigurationFile filename r) ∨
       (∃ buf decoded, filename ≠ "" ∧ ioutil_ReadFile w filename = (buf, None) ∧
          (if parseTemplate then CreateConfiguration buf else DecodeConfiguration buf)
            = (decoded, Some err)))
  end.
Proof.
  intros E. destruct e as [err|]; [|by eapply loadFileConfig_Some].
  revert E. unfold loadFileConfig, readFile. rewrite nonempty_length.
  case_bool_decide as Hf.
  - destruct (ioutil_ReadFile w filename) as [buf [r|]] eqn:Hr.
    + intros [= <- <-]. split; [done|]. right; left. by exists buf, r.
    + destruct (if parseTemplate then _ else _) as [decoded [de|]] eqn:Hd; [|done].
      intros [= <- <-]. split; [done|]. right; right. by exists buf, decoded.
  - intros [= <- <-]. split; [done|]. by left.
Qed.
End Skips.

Lemma other_extensions_are_skipped_witness :
  walkItems idOrder exampleDecode exampleDecode slashJoin slashJoin exampleWorld
    (loadFileConfigFromDirectory idOrder exampleDecode exampleDecode slashJoin slashJoin
       exampleWorld 1 fileLogger)
    fileLogger "/cfg"
    [ {| os.Name := "notes.txt"; os.IsDir := false |};
      {| os.Name := "b.toml"; os.IsDir := false |} ]
    (Some emptyConfiguration) ∅ emptyRuntime
  = walkItems idOrder exampleDecode exampleDecode slashJoin slashJoin exampleWorld
    (loadFileConfigFromDirectory idOrder exampleDecode exampleDecode slashJoin slashJoin
       exampleWorld 1 fileLogger)
    fileLogger "/cfg"
    [ {| os.Name := "b.toml"; os.IsDir := false |} ]
    (Some emptyConfiguration) ∅ emptyRuntime.
Proof.
  apply other_extensions_are_skipped; [reflexivity|].
  intros pre. split; intros Hname.
  - assert (HasSuffix "notes.txt" ".toml" = true) as Hs
      by (apply HasSuffix_spec; exists pre; exact Hname).
    vm_compute in Hs. discriminate Hs.
  - assert (HasSuffix "notes.txt" ".tmpl" = true) as Hs
      by (apply HasSuffix_spec; exists pre; exact Hname).
    vm_compute in Hs. discriminate Hs.
Defined.

Lemma nothing_to_load_leaves_accumulator_witness :
  loadFileConfigFromDirectory idOrder exampleDecode exampleDecode slashJoin slashJoin
    notesWorld 1 fileLogger "/notes" None emptyRuntime
  = Done (Some (startFrom None), None) (tick 1 emptyRuntime).
Proof.
  apply (nothing_to_load_leaves_accumulator idOrder exampleDecode exampleDecode slashJoin
           slashJoin notesWorld 0 fileLogger "/notes" None emptyRuntime
           [ {| os.Name := "README.md"; os.IsDir := false |};
             {| os.Name := "notes.txt"; os.IsDir := false |} ]).
  - reflexivity.
  - repeat constructor.
Defined.

Lemma loadFileConfig_snapshot_or_error_witness :
  (None : option Configuration) = None ∧
  (("/cfg/b.toml" = "" ∧
    ErrorReadingConfigurationFile "/cfg/b.toml" (External "no such file or directory")
      = ErrorReadingConfigurationFile "/cfg/b.toml" (InvalidFilename "/cfg/b.toml")) ∨
   (∃ buf r, "/cfg/b.toml" ≠ "" ∧ ioutil_ReadFile removedWorld "/cfg/b.toml" = (buf, Some r) ∧
             ErrorReadingConfigurationFile "/cfg/b.toml" (External "no such file or directory")
               = ErrorReadingConfigurationFile "/cfg/b.toml" r) ∨
   (∃ buf decoded, "/cfg/b.toml" ≠ "" ∧
      ioutil_ReadFile removedWorld "/cfg/b.toml" = (buf, None) ∧
      exampleDecode buf
        = (decoded, Some (ErrorReadingConfigurationFile "/cfg/b.toml"
                            (External "no such file or directory"))))).
Proof.
  apply (loadFileConfig_snapshot_or_error exampleDecode exampleDecode removedWorld
           "/cfg/b.toml" true None
           (Some (ErrorReadingConfigurationFile "/cfg/b.toml"
                    (External "no such file or directory")))).
  vm_compute; reflexivity.
Defined.

(** ** The first failure ends the walk *)

Section FailFast.
Variable rho : RangeOrder.
Variable CreateConfiguration : string → option Configuration * option error.
Variable DecodeConfiguration : string → option Configuration * option error.
Variable path_Join : string → string → string.
Variable filepath_Join : string → string → string.
Variable w : World.

Local Abbreviation load := (loadFileConfigFromDirectory rho CreateConfiguration
                          DecodeConfiguration path_Join filepath_Join w).
Local Abbreviation walk := (walkItems rho CreateConfiguration
                          DecodeConfiguration path_Join filepath_Join w).

Lemma walkItems_prefix recurse logger directory rest : ∀ before cfg seen s,
  Forall (fileLoads CreateConfiguration DecodeConfiguration path_Join w directory) before →
  nonNilMaps cfg →
  ∃ cfg1 seen1 s1,
    extends cfg cfg1 ∧
    walk recurse logger directory before (Some cfg) seen s
      = Done (inr (Some cfg1, seen1)) s1 ∧
    walk recurse logger directory (before ++ rest) (Some cfg) seen s
      = walk recurse logger directory rest (Some cfg1) seen1 s1.
Proof.
  induction before as [|item before IH]; intros cfg seen s Hb G.
  - exists cfg, seen, s. split; [by apply extends_refl|done].
  - apply Forall_cons in Hb as [[Hfile Hload] Hb].
    rewrite <- app_comm_cons. cbn [walkItems]. rewrite Hfile, recognized_skip.
    destruct (recognized item); simpl; [|by apply IH].
    destruct (loadFileConfig _ _ _ _ _) as [c e] eqn:Eload.
    specialize (Hload eq_refl). simpl in Hload. subst e.
    destruct c as [c|]; [|by apply loadFileConfig_Some in Eload as [? ?]].
    pose proof G as ([ra Hr] & [ma Hm] & [sa Hs]).
    destruct (mergeFile_spec rho logger c cfg seen s ra ma sa Hr Hm Hs)
      as (? & ? & ? & E & _).
    rewrite !(bind_Done _ _ _ _ _ E). cbn [fst snd].
    edestruct IH as (cfg1 & seen1 & s1 & X1 & E1 & E2); [done|apply nonNilMaps_merge|].
    exists cfg1, seen1, s1. split; [|by rewrite E1, E2].
    eapply extends_trans; [by apply (extends_merge cfg c ra ma sa)|done].
Qed.

(** X13. When the entries listed before some entry are files that are
    skipped or load without error, and that entry fails, the call returns at
    once with the accumulator as the earlier files left it: later entries are
    not visited, and the TLS entries collected from the earlier files are not
    appended.  A file that cannot be loaded fails the call with the file's own
    error, unwrapped; a subdirectory that cannot be listed fails it with the
    subdirectory's read error wrapped once as a subdirectory failure. *)
Theorem first_failure_aborts_the_walk fuel ctx directory acc s before item after :
  (∀ a, acc = Some a → nonNilMaps a) →
  ioutil_ReadDir w directory = (before ++ item :: after, None) →
  Forall (fileLoads CreateConfiguration DecodeConfiguration path_Join w directory) before →
  ∃ cfg1 seen1 s1,
    extends (startFrom acc) cfg1 ∧
    TLS cfg1 = TLS (startFrom acc) ∧
    walk (load fuel ctx) ctx directory before (Some (startFrom acc)) ∅ s
      = Done (inr (Some cfg1, seen1)) s1 ∧
    (∀ e, os.IsDir item = false → recognized item = true →
          (loadFileConfig CreateConfiguration DecodeConfiguration w
             (path_Join directory (os.Name item)) true).2 = Some e →
          load (S fuel) ctx directory acc s = Done (Some cfg1, Some e) s1) ∧
    (∀ fileList e, os.IsDir item = true →
          ioutil_ReadDir w (filepath_Join directory (os.Name item)) = (fileList, Some e) →
          load (S (S fuel)) ctx directory acc s
            = Done (Some cfg1,
                    Some (UnableToLoadSubdirectory item
                            (UnableToReadDirectory
                               (filepath_Join directory (os.Name item)) e))) s1).
Proof.
  intros Hacc Hdir Hbefore.
  assert (nonNilMaps (startFrom acc)) as G.
  { destruct acc as [a|]; [by apply Hacc|apply nonNilMaps_empty]. }
  assert (∀ fuel', ∃ cfg1 seen1 s1,
            extends (startFrom acc) cfg1 ∧
            walk (load fuel' ctx) ctx directory before (Some (startFrom acc)) ∅ s
              = Done (inr (Some cfg1, seen1)) s1 ∧
            walk (load fuel' ctx) ctx directory (before ++ item :: after)
              (Some (startFrom acc)) ∅ s
              = walk (load fuel' ctx) ctx directory (item :: after) (Some cfg1) seen1 s1)
    as Hpre by (intros fuel'; by apply walkItems_prefix).
  destruct (Hpre fuel) as (cfg1 & seen1 & s1 & X1 & E1 & E2).
  exists cfg1, seen1, s1. split; [done|]. split.
  { eapply (walkItems_flat_TLS rho CreateConfiguration DecodeConfiguration path_Join
              filepath_Join w) in E1 as [= ->]; [done|].
    eapply Forall_impl; [exact Hbefore|]. by intros ? [? _]. }
  split; [done|]. split.
  - intros e Hfile Hrec Hload. rewrite load_S, Hdir, bind_eq.
    replace (match acc with None => Some emptyConfiguration | Some _ => acc end)
      with (Some (startFrom acc)) by (by destruct acc).
    rewrite E2. cbn [walkItems]. rewrite Hfile, recognized_skip, Hrec. simpl.
    destruct (loadFileConfig _ _ _ _ _) as [c e']. simpl in Hload. by subst e'.
  - intros fileList e Hsub Hlist.
    destruct (Hpre (S fuel)) as (cfg2 & seen2 & s2 & X2 & E1' & E2').
    assert (walk (load (S fuel) ctx) ctx directory before (Some (startFrom acc)) ∅ s
            = Done (inr (Some cfg1, seen1)) s1) as E1''.
    { apply (walkItems_more_fuel rho CreateConfiguration DecodeConfiguration path_Join
               filepath_Join w (load fuel ctx)); [|done].
      intros. by apply load_more_fuel. }
    rewrite E1'' in E1'. injection E1' as <- <- <-.
    rewrite load_S, Hdir, bind_eq.
    replace (match acc with None => Some emptyConfiguration | Some _ => acc end)
      with (Some (startFrom acc)) by (by destruct acc).
    rewrite E2'. cbn [walkItems]. rewrite Hsub, bind_eq, load_S, Hlist. done.
Qed.
End FailFast.

Lemma first_failure_aborts_the_walk_witness :
  ∃ cfg1 s1,
    loadFileConfigFromDirectory idOrder exampleDecode exampleDecode slashJoin slashJoin
      brokenWorld 1 fileLogger "/cfg" None emptyRuntime
    = Done (Some cfg1, Some (External "cannot decode")) s1 ∧
    mapping RoutersKind cfg1 !! "r1" = Some 1%positive ∧
    TLS cfg1 = None.
Proof.
  destruct (first_failure_aborts_the_walk idOrder exampleDecode exampleDecode slashJoin
              slashJoin brokenWorld 0 fileLogger "/cfg" None emptyRuntime
              [ {| os.Name := "b.toml"; os.IsDir := false |} ]
              {| os.Name := "broken.toml"; os.IsDir := false |}
              [ {| os.Name := "a.toml"; os.IsDir := false |} ])
    as (cfg1 & seen1 & s1 & _ & Htls & Hwalk & Hfile & _).
  - intros a Ha. discriminate Ha.
  - reflexivity.
  - repeat constructor.
  - exists cfg1, s1. split; [by apply Hfile|]. split; [|exact Htls].
    vm_compute in Hwalk. injection Hwalk as <- _ _. reflexivity.
Defined.
